(** * Todo-List: the task store and its REST routes

    A shallow embedding of [server/storage.ts] (class [MemStorage]),
    [shared/schema.ts] (the two zod schemas) and [server/routes.ts]
    (the six Express routes), with the properties of the store and of
    the HTTP layer stated over it.

    Conventions of the embedding.
    - A JavaScript string is its sequence of UTF-16 code units.
    - Task ids and [currentId] are JavaScript numbers holding integers;
      they are modelled as [Z], which is exact below 2^53.
    - [Map<number, Task>] is a [gmap Z Task].  The insertion order of
      the JavaScript map is only ever observed through [getTasks], which
      sorts by id.
    - [async] methods of the store are run to completion one after the
      other; they become functions in a state monad over [MemStorage]. *)

From stdpp Require Import gmap list sorting strings fin_maps.
From Stdlib Require Import ZArith Lia.

Local Open Scope Z_scope.

(* ===================================================================== *)
(** ** JavaScript strings and [parseInt]                                  *)
(* ===================================================================== *)

Abbreviation jsstring := (list N).

(** An ASCII literal as a JavaScript string. *)
Definition str (s : string) : jsstring :=
  Ascii.N_of_ascii <$> String.list_ascii_of_string s.

Module JS.

(** WhiteSpace and LineTerminator code units, the ones [parseInt]
    strips from the start of its argument. *)
Definition is_white (c : N) : bool :=
  ((c =? 9) || (c =? 10) || (c =? 11) || (c =? 12) || (c =? 13)
   || (c =? 32) || (c =? 160) || (c =? 5760)
   || ((8192 <=? c) && (c <=? 8202))
   || (c =? 8232) || (c =? 8233) || (c =? 8239) || (c =? 8287)
   || (c =? 12288) || (c =? 65279))%N.

Fixpoint trim_start (s : jsstring) : jsstring :=
  match s with
  | c :: s' => if is_white c then trim_start s' else s
  | [] => []
  end.

(** The value of a code unit as a digit of the given radix. *)
Definition digit_value (radix : N) (c : N) : option N :=
  let v :=
    (if (48 <=? c) && (c <=? 57) then Some (c - 48)
     else if (97 <=? c) && (c <=? 122) then Some (c - 97 + 10)
     else if (65 <=? c) && (c <=? 90) then Some (c - 65 + 10)
     else None)%N in
  match v with
  | Some d => if (d <? radix)%N then Some d else None
  | None => None
  end.

(** The longest prefix made of radix digits, as digit values. *)
Fixpoint digits_prefix (radix : N) (s : jsstring) : list N :=
  match s with
  | c :: s' =>
      match digit_value radix c with
      | Some d => d :: digits_prefix radix s'
      | None => []
      end
  | [] => []
  end.

Definition strip_sign (s : jsstring) : Z * jsstring :=
  match s with
  | c :: s' =>
      if (c =? 45)%N then (-1, s')
      else if (c =? 43)%N then (1, s')
      else (1, s)
  | [] => (1, s)
  end.

Definition strip_hex_prefix (s : jsstring) : N * jsstring :=
  match s with
  | c0 :: c1 :: s' =>
      if ((c0 =? 48) && ((c1 =? 120) || (c1 =? 88)))%N then (16%N, s')
      else (10%N, s)
  | _ => (10%N, s)
  end.

Definition digits_value (radix : N) (ds : list N) : Z :=
  foldl (λ acc d, acc * Z.of_N radix + Z.of_N d) 0 ds.

(** [parseInt(string)] with no radix argument.  [None] is NaN, the one
    result for which [isNaN] answers [true]. *)
Definition parseInt (s : jsstring) : option Z :=
  let '(sign, s1) := strip_sign (trim_start s) in
  let '(radix, s2) := strip_hex_prefix s1 in
  match digits_prefix radix s2 with
  | [] => None
  | ds => Some (sign * digits_value radix ds)
  end.

(** [String.prototype.trim]: white space and line terminators are
    removed from both ends. *)
Definition trim (s : jsstring) : jsstring :=
  reverse (trim_start (reverse (trim_start s))).

(** The decimal digits of a natural number, least significant first. *)
Fixpoint decimal_rev (fuel : nat) (n : N) : list N :=
  match fuel with
  | O => []
  | S fuel' =>
      (48 + n mod 10)%N
      :: (if (n / 10 =? 0)%N then [] else decimal_rev fuel' (n / 10)%N)
  end.

Definition decimal (n : N) : jsstring :=
  reverse (decimal_rev (S (N.size_nat n)) n).

(** [Number.isSafeInteger(n)]: the integers that a JavaScript number
    holds exactly, from [-(2^53 - 1)] to [2^53 - 1]. *)
Definition safe_integer (n : Z) : bool := Z.abs n <? 2 ^ 53.

(** [String(n)], as in the template string [`/api/tasks/${id}`], for an
    integer [n].  A safe integer is written with its decimal digits,
    after a minus sign when negative.  Beyond the safe range JavaScript
    writes the shortest decimal that reads back as the same double, in
    exponent notation from 10^21 on (["1e+21"]); that text depends on
    the double and is not computed here: it is the parameter
    [beyond_safe]. *)
Definition number_to_string (beyond_safe : Z → jsstring) (n : Z) : jsstring :=
  if safe_integer n then
    if n <? 0 then 45%N :: decimal (Z.to_N (- n)) else decimal (Z.to_N n)
  else beyond_safe n.

End JS.

(* ===================================================================== *)
(** ** shared/schema.ts: the task record and the two payload types        *)
(* ===================================================================== *)

Record Task := mkTask {
  id : Z;
  text : jsstring;
  completed : bool
}.

Global Instance Task_eq_dec : EqDecision Task.
Proof. solve_decision. Defined.

(** [InsertTask = { text: string; completed?: boolean }]. *)
Record InsertTask := mkInsertTask {
  insert_text : jsstring;
  insert_completed : option bool
}.

(** [UpdateTask = { text?: string; completed?: boolean }]. *)
Record UpdateTask := mkUpdateTask {
  update_text : option jsstring;
  update_completed : option bool
}.

(* ===================================================================== *)
(** ** server/storage.ts: MemStorage                                      *)
(* ===================================================================== *)

Record MemStorage := mkMemStorage {
  tasks : gmap Z Task;
  currentId : Z
}.

(** A computation of the store: it reads and replaces the whole state. *)
Definition Store (A : Type) : Type := MemStorage → A * MemStorage.

Global Instance Store_ret : MRet Store := λ A a st, (a, st).

Global Instance Store_bind : MBind Store :=
  λ A B k m st, let '(a, st') := m st in k a st'.

Module MemStorage.

(** [constructor()] *)
Definition new : MemStorage := {| tasks := ∅; currentId := 1 |}.

(** The comparator [(a, b) => a.id - b.id] of [getTasks], as the order
    it induces. *)
Definition by_id (a b : Task) : Prop := id a ≤ id b.

Global Instance by_id_dec : RelDecision by_id.
Proof. intros a b. unfold by_id. apply _. Defined.

(** [Array.from(this.tasks.values())] *)
Definition values (m : gmap Z Task) : list Task := (map_to_list m).*2.

Definition getTasks : Store (list Task) :=
  λ st, (merge_sort by_id (values (tasks st)), st).

Definition getTask (i : Z) : Store (option Task) :=
  λ st, (tasks st !! i, st).

(** [insertTask.completed || false] *)
Definition or_false (c : option bool) : bool :=
  match c with
  | Some b => b || false
  | None => false
  end.

Definition createTask (insertTask : InsertTask) : Store Task :=
  λ st,
    let i := currentId st in
    let task := {| id := i;
                   text := insert_text insertTask;
                   completed := or_false (insert_completed insertTask) |} in
    (task, {| tasks := <[i := task]> (tasks st); currentId := i + 1 |}).

(** [{ ...existingTask, ...updates }] *)
Definition spread (existingTask : Task) (updates : UpdateTask) : Task :=
  {| id := id existingTask;
     text := default (text existingTask) (update_text updates);
     completed := default (completed existingTask) (update_completed updates) |}.

Definition updateTask (i : Z) (updates : UpdateTask) : Store (option Task) :=
  λ st,
    match tasks st !! i with
    | None => (None, st)
    | Some existingTask =>
        let updatedTask := spread existingTask updates in
        (Some updatedTask,
         {| tasks := <[i := updatedTask]> (tasks st);
            currentId := currentId st |})
    end.

(** [Map.prototype.delete] answers whether the key was present. *)
Definition deleteTask (i : Z) : Store bool :=
  λ st,
    (bool_decide (is_Some (tasks st !! i)),
     {| tasks := delete i (tasks st); currentId := currentId st |}).

Definition clearCompletedTasks : Store nat :=
  λ st,
    let completedTasks :=
      filter (λ task, completed task = true) (values (tasks st)) in
    let count := length completedTasks in
    (count,
     {| tasks := foldl (λ m task, delete (id task) m) (tasks st) completedTasks;
        currentId := currentId st |}).

End MemStorage.

(* ===================================================================== *)
(** ** Request bodies and the zod schemas of shared/schema.ts             *)
(* ===================================================================== *)

#[local] Set Warnings "-register-all".

(** [req.body] after the JSON body parser. *)
Inductive json :=
| JNull
| JBool (b : bool)
| JNum (n : Z)
| JStr (s : jsstring)
| JArr (items : list json)
| JObj (fields : list (jsstring * json)).

(** The value of property [k] of a parsed object; [None] is [undefined]. *)
Fixpoint get_field (k : jsstring) (fields : list (jsstring * json)) : option json :=
  match fields with
  | [] => None
  | (k', v) :: rest => if decide (k' = k) then Some v else get_field k rest
  end.

(** The issues of a [ZodError] that the routes can raise.  An issue of
    kind [invalid_type] carries zod's built-in message, the other two the
    message given in the schema. *)
Inductive ZodIssue :=
| invalid_type (path : list string)
| too_small (message : string)
| too_big (message : string).

Module Schema.

(** [z.string().min(1, "Task text is required").max(500, "Task text is
    too long")]: the first issue, or the string. *)
Definition text_1_500 (v : option json) : ZodIssue + jsstring :=
  match v with
  | Some (JStr s) =>
      if (length s <? 1)%nat then inl (too_small "Task text is required")
      else if (500 <? length s)%nat then inl (too_big "Task text is too long")
      else inr s
  | _ => inl (invalid_type ["text"])
  end.

(** [z.string().optional()], the column [text] under [.partial()]. *)
Definition optional_string (v : option json) : ZodIssue + option jsstring :=
  match v with
  | None => inr None
  | Some (JStr s) => inr (Some s)
  | Some _ => inl (invalid_type ["text"])
  end.

(** [z.boolean().optional()], the column [completed] (it has a default). *)
Definition optional_boolean (v : option json) : ZodIssue + option bool :=
  match v with
  | None => inr None
  | Some (JBool b) => inr (Some b)
  | Some _ => inl (invalid_type ["completed"])
  end.

(** [insertTaskSchema.parse]: [inl] is the first issue of the thrown
    [ZodError] ([error.errors[0]]); keys are checked in the order
    [text], [completed], unknown keys are stripped. *)
Definition insertTaskSchema (body : json) : ZodIssue + InsertTask :=
  match body with
  | JObj fields =>
      match text_1_500 (get_field (str "text") fields) with
      | inl issue => inl issue
      | inr t =>
          match optional_boolean (get_field (str "completed") fields) with
          | inl issue => inl issue
          | inr c => inr {| insert_text := t; insert_completed := c |}
          end
      end
  | _ => inl (invalid_type [])
  end.

(** [updateTaskSchema.parse]: the picked columns made optional; the
    [.extend] of [insertTaskSchema] is not part of it. *)
Definition updateTaskSchema (body : json) : ZodIssue + UpdateTask :=
  match body with
  | JObj fields =>
      match optional_string (get_field (str "text") fields) with
      | inl issue => inl issue
      | inr t =>
          match optional_boolean (get_field (str "completed") fields) with
          | inl issue => inl issue
          | inr c => inr {| update_text := t; update_completed := c |}
          end
      end
  | _ => inl (invalid_type [])
  end.

End Schema.

(* ===================================================================== *)
(** ** server/routes.ts                                                   *)
(* ===================================================================== *)

Inductive Method := GET | POST | PUT | DELETE.

Global Instance Method_eq_dec : EqDecision Method.
Proof. solve_decision. Defined.

(** A request: its method, the segments of its path, its parsed body. *)
Record Request := mkRequest {
  method : Method;
  path : list jsstring;
  body : json
}.

(** The [message] property of an error response. *)
Inductive Message :=
| Msg (s : string)
| ZodBuiltin (path : list string).

Definition issue_message (issue : ZodIssue) : Message :=
  match issue with
  | invalid_type p => ZodBuiltin p
  | too_small m | too_big m => Msg m
  end.

Inductive Payload :=
| TasksJson (ts : list Task)
| TaskJson (t : Task)
| MessageJson (message : Message)
| DeletedCountJson (deletedCount : nat)
| NoBody.

Record Response := mkResponse {
  status : Z;
  payload : Payload
}.

(** [res.json(x)] answers 200 unless [res.status] was called first. *)
Definition json_ok (p : Payload) : Response := mkResponse 200 p.

Module Routes.
Import MemStorage.

(** What a handler sees of the request: [req.params.id] (empty when the
    route has no parameter) and [req.body]. *)
Definition Handler : Type := jsstring → json → Store Response.

(** [app.get("/api/tasks")] *)
Definition get_tasks : Handler := λ _ _,
  ts ← getTasks;
  mret (json_ok (TasksJson ts)).

(** [app.post("/api/tasks")] *)
Definition post_task : Handler := λ _ body,
  match Schema.insertTaskSchema body with
  | inl issue => mret (mkResponse 400 (MessageJson (issue_message issue)))
  | inr validatedData =>
      task ← createTask validatedData;
      mret (mkResponse 201 (TaskJson task))
  end.

(** [app.put("/api/tasks/:id")] *)
Definition put_task : Handler := λ params_id body,
  match JS.parseInt params_id with
  | None => mret (mkResponse 400 (MessageJson (Msg "Invalid task ID")))
  | Some i =>
      match Schema.updateTaskSchema body with
      | inl issue => mret (mkResponse 400 (MessageJson (issue_message issue)))
      | inr validatedData =>
          task ← updateTask i validatedData;
          match task with
          | None => mret (mkResponse 404 (MessageJson (Msg "Task not found")))
          | Some t => mret (json_ok (TaskJson t))
          end
      end
  end.

(** [app.delete("/api/tasks/:id")] *)
Definition delete_task : Handler := λ params_id _,
  match JS.parseInt params_id with
  | None => mret (mkResponse 400 (MessageJson (Msg "Invalid task ID")))
  | Some i =>
      deleted ← deleteTask i;
      if deleted : bool then mret (mkResponse 204 NoBody)
      else mret (mkResponse 404 (MessageJson (Msg "Task not found")))
  end.

(** [app.delete("/api/tasks/completed")] *)
Definition delete_completed : Handler := λ _ _,
  count ← clearCompletedTasks;
  mret (json_ok (DeletedCountJson count)).

(** The [for (const task of tasks)] loop of the toggle-all handler. *)
Fixpoint toggle_loop (newCompletedStatus : bool) (ts : list Task)
    (updatedTasks : list Task) : Store (list Task) :=
  match ts with
  | [] => mret updatedTasks
  | task :: rest =>
      updated ← updateTask (id task)
                  {| update_text := None;
                     update_completed := Some newCompletedStatus |};
      toggle_loop newCompletedStatus rest
        (match updated with
         | Some u => updatedTasks ++ [u]
         | None => updatedTasks
         end)
  end.

(** [app.put("/api/tasks/toggle-all")] *)
Definition put_toggle_all : Handler := λ _ _,
  ts ← getTasks;
  let allCompleted := forallb completed ts in
  let newCompletedStatus := negb allCompleted in
  updatedTasks ← toggle_loop newCompletedStatus ts [];
  mret (json_ok (TasksJson updatedTasks)).

(** A segment of a route path: a literal, or a named parameter that
    takes one non-empty segment of the request path. *)
Inductive Segment :=
| Lit (s : string)
| Param (name : string).

(** Matching a route path against a request path; on success the value
    of the parameter (the routes have at most one), or the empty
    string. *)
Fixpoint match_path (pattern : list Segment) (p : list jsstring)
    : option jsstring :=
  match pattern, p with
  | [], [] => Some []
  | Lit s :: pattern', seg :: p' =>
      if decide (seg = str s) then match_path pattern' p' else None
  | Param _ :: pattern', seg :: p' =>
      if decide (seg = []) then None
      else match match_path pattern' p' with
           | Some _ => Some seg
           | None => None
           end
  | _, _ => None
  end.

Record Route := mkRoute {
  route_method : Method;
  route_path : list Segment;
  route_handler : Handler
}.

(** The routes in the order [registerRoutes] registers them. *)
Definition registerRoutes : list Route :=
  [ mkRoute GET [Lit "api"; Lit "tasks"] get_tasks;
    mkRoute POST [Lit "api"; Lit "tasks"] post_task;
    mkRoute PUT [Lit "api"; Lit "tasks"; Param "id"] put_task;
    mkRoute DELETE [Lit "api"; Lit "tasks"; Param "id"] delete_task;
    mkRoute DELETE [Lit "api"; Lit "tasks"; Lit "completed"] delete_completed;
    mkRoute PUT [Lit "api"; Lit "tasks"; Lit "toggle-all"] put_toggle_all ].

(** Express runs the first registered route whose method and path
    match; every handler above answers without calling [next], so no
    later route is tried.  [None]: no route of this router matches. *)
Fixpoint dispatch (routes : list Route) (req : Request)
    : option (Store Response) :=
  match routes with
  | [] => None
  | r :: routes' =>
      if decide (route_method r = method req) then
        match match_path (route_path r) (path req) with
        | Some params_id => Some (route_handler r params_id (body req))
        | None => dispatch routes' req
        end
      else dispatch routes' req
  end.

(** The server: a request against a store. *)
Definition handle (req : Request) (st : MemStorage)
    : option (Response * MemStorage) :=
  match dispatch registerRoutes req with
  | Some h => Some (h st)
  | None => None
  end.

End Routes.

(* ===================================================================== *)
(** ** Histories of store calls, reachable and well-formed stores         *)
(* ===================================================================== *)

(** One call of a method of [IStorage], and what it answers. *)
Inductive Call :=
| CallGetTasks
| CallGetTask (i : Z)
| CallCreateTask (insertTask : InsertTask)
| CallUpdateTask (i : Z) (updates : UpdateTask)
| CallDeleteTask (i : Z)
| CallClearCompletedTasks.

Inductive Answer :=
| AnsTasks (ts : list Task)
| AnsFound (t : option Task)
| AnsCreated (t : Task)
| AnsUpdated (t : option Task)
| AnsDeleted (b : bool)
| AnsCleared (count : nat).

Definition call (c : Call) : Store Answer :=
  match c with
  | CallGetTasks => ts ← MemStorage.getTasks; mret (AnsTasks ts)
  | CallGetTask i => t ← MemStorage.getTask i; mret (AnsFound t)
  | CallCreateTask insertTask =>
      t ← MemStorage.createTask insertTask; mret (AnsCreated t)
  | CallUpdateTask i updates =>
      t ← MemStorage.updateTask i updates; mret (AnsUpdated t)
  | CallDeleteTask i => b ← MemStorage.deleteTask i; mret (AnsDeleted b)
  | CallClearCompletedTasks =>
      n ← MemStorage.clearCompletedTasks; mret (AnsCleared n)
  end.

(** A history of calls, run in order on one store. *)
Fixpoint calls (cs : list Call) : Store (list Answer) :=
  match cs with
  | [] => mret []
  | c :: cs' => a ← call c; answers ← calls cs'; mret (a :: answers)
  end.

(** The payloads of the [createTask] calls of a history, and the tasks
    that [createTask] answered. *)
Definition inserted (cs : list Call) : list InsertTask :=
  omap (λ c, match c with CallCreateTask ins => Some ins | _ => None end) cs.

Definition created (answers : list Answer) : list Task :=
  omap (λ a, match a with AnsCreated t => Some t | _ => None end) answers.

(** The record [createTask] builds for the [n]-th payload of a history
    when the counter stood at [base] before the first. *)
Definition nth_created (base : Z) (n : nat) (insertTask : InsertTask) : Task :=
  mkTask (base + Z.of_nat n) (insert_text insertTask)
    (default false (insert_completed insertTask)).

(** A store that some history of calls builds from [new MemStorage()]. *)
Definition reachable (st : MemStorage) : Prop :=
  ∃ cs, (calls cs MemStorage.new).2 = st.

(** Every record is stored under its own id, and ids handed out so far
    lie between 1 and [currentId]. *)
Definition wf (st : MemStorage) : Prop :=
  1 ≤ currentId st ∧
  map_Forall (λ k t, id t = k ∧ 1 ≤ k < currentId st) (tasks st).

Global Instance wf_dec st : Decision (wf st).
Proof. unfold wf. apply _. Defined.

(* ===================================================================== *)
(** ** Requests in sequence, and the words of the interface contract      *)
(* ===================================================================== *)

(** Requests served one after the other; a request that no route of the
    router matches leaves the store as it is. *)
Fixpoint serve (reqs : list Request) (st : MemStorage)
    : list (option Response) * MemStorage :=
  match reqs with
  | [] => ([], st)
  | req :: reqs' =>
      match Routes.handle req st with
      | Some (res, st') =>
          let '(rs, st'') := serve reqs' st' in (Some res :: rs, st'')
      | None =>
          let '(rs, st'') := serve reqs' st in (None :: rs, st'')
      end
  end.

(** The request paths of the interface. *)
Definition tasks_path : list jsstring := [str "api"; str "tasks"].
Definition task_path (params_id : jsstring) : list jsstring :=
  [str "api"; str "tasks"; params_id].

(** The id path parameter "is an integer", in the words of the interface
    contract: an optional sign, then decimal digits and nothing else. *)
Definition is_integer (s : jsstring) : bool :=
  let digits := (JS.strip_sign s).2 in
  match digits with
  | [] => false
  | _ => forallb (λ c, (48 <=? c)%N && (c <=? 57)%N) digits
  end.

(** The answer "400, and the store is not modified". *)
Definition rejected_400 (req : Request) (st : MemStorage) : Prop :=
  ∃ p, Routes.handle req st = Some (mkResponse 400 p, st).

(** What the toggle-all loop makes of one task:
    [{ ...task, completed: newCompletedStatus }]. *)
Definition set_completed (newCompletedStatus : bool) (task : Task) : Task :=
  MemStorage.spread task
    {| update_text := None; update_completed := Some newCompletedStatus |}.

(* ===================================================================== *)
(** ** client/src/pages/home.tsx: what the page computes and sends        *)
(* ===================================================================== *)

(** Modelled from the spec: [apiRequest(method, url, data)] of
    [client/src/lib/queryClient], which is not among the sources.  The
    interface has all request bodies be JSON: the request carries the
    JSON of [data], and with no data the server's body parser yields the
    empty object.  The URL is given by its path segments. *)
Definition apiRequest (m : Method) (url : list jsstring) (data : option json)
    : Request :=
  mkRequest m url (match data with Some d => d | None => JObj [] end).

Module Home.

Inductive FilterType := FilterAll | FilterActive | FilterCompleted.

(** The URL [`/api/tasks/${id}`] of the update and delete mutations;
    [beyond_safe] is what [String] writes for an id beyond the safe
    range (see [JS.number_to_string]). *)
Definition task_url (beyond_safe : Z → jsstring) (i : Z) : list jsstring :=
  [str "api"; str "tasks"; JS.number_to_string beyond_safe i].

Definition createTaskMutation (task : InsertTask) : Request :=
  apiRequest POST [str "api"; str "tasks"]
    (Some (JObj ((str "text", JStr (insert_text task))
                 :: match insert_completed task with
                    | Some c => [(str "completed", JBool c)]
                    | None => []
                    end))).

Definition updateTaskMutation (beyond_safe : Z → jsstring) (i : Z)
    (updates : UpdateTask) : Request :=
  apiRequest PUT (task_url beyond_safe i)
    (Some (JObj (match update_text updates with
                 | Some t => [(str "text", JStr t)]
                 | None => []
                 end
                 ++ match update_completed updates with
                    | Some c => [(str "completed", JBool c)]
                    | None => []
                    end))).

Definition deleteTaskMutation (beyond_safe : Z → jsstring) (i : Z) : Request :=
  apiRequest DELETE (task_url beyond_safe i) None.

Definition clearCompletedMutation : Request :=
  apiRequest DELETE [str "api"; str "tasks"; str "completed"] None.

Definition toggleAllMutation : Request :=
  apiRequest PUT [str "api"; str "tasks"; str "toggle-all"] None.

(** [handleAddTask]: the request sent, if any, for the text of the input
    box. *)
Definition handleAddTask (newTaskText : jsstring) : option Request :=
  let text := JS.trim newTaskText in
  match text with
  | [] => None
  | _ => Some (createTaskMutation (mkInsertTask text (Some false)))
  end.

Definition handleToggleTask (beyond_safe : Z → jsstring) (task : Task)
    : Request :=
  updateTaskMutation beyond_safe (id task)
    (mkUpdateTask None (Some (negb (completed task)))).

(** [handleSaveEdit]: the request sent, if any, for the edit buffer. *)
Definition handleSaveEdit (beyond_safe : Z → jsstring)
    (editingText : jsstring) (taskId : Z) : option Request :=
  let text := JS.trim editingText in
  match text with
  | [] => None
  | _ => Some (updateTaskMutation beyond_safe taskId
                 (mkUpdateTask (Some text) None))
  end.

Definition handleDeleteTask (beyond_safe : Z → jsstring) (taskId : Z)
    : Request :=
  deleteTaskMutation beyond_safe taskId.

(** The callback of [tasks.filter] in [filteredTasks]. *)
Definition shown (f : FilterType) (task : Task) : bool :=
  match f with
  | FilterActive => negb (completed task)
  | FilterCompleted => completed task
  | FilterAll => true
  end.

Definition filteredTasks (f : FilterType) (ts : list Task) : list Task :=
  filter (λ task, shown f task = true) ts.

Definition totalTasks (ts : list Task) : Z := Z.of_nat (length ts).

Definition completedTasks (ts : list Task) : Z :=
  Z.of_nat (length (filter (λ task, completed task = true) ts)).

Definition remainingTasks (ts : list Task) : Z :=
  totalTasks ts - completedTasks ts.

(** The [disabled] attributes of the two footer buttons, no mutation
    pending. *)
Definition clearCompleted_disabled (ts : list Task) : bool :=
  bool_decide (completedTasks ts = 0).

Definition toggleAll_disabled (ts : list Task) : bool :=
  bool_decide (totalTasks ts = 0).

End Home.

(** A code unit ['0'] to ['9']. *)
Definition is_dec_digit (c : N) : Prop := (48 ≤ c ≤ 57)%N.

(** The number that digit values stand for, least significant first. *)
Definition value_rev (ds : list N) : Z :=
  foldr (λ d acc, acc * 10 + Z.of_N d) 0 ds.

(** A small reachable store for the examples: three tasks, the last two
    completed. *)
Definition store_abc : MemStorage :=
  (calls [CallCreateTask (mkInsertTask (str "a") None);
          CallCreateTask (mkInsertTask (str "b") (Some true));
          CallCreateTask (mkInsertTask (str "c") (Some true))]
     MemStorage.new).2.

(** Two tasks, the first completed and the second not. *)
Definition store_mixed : MemStorage :=
  (calls [CallCreateTask (mkInsertTask (str "a") (Some true));
          CallCreateTask (mkInsertTask (str "b") None)]
     MemStorage.new).2.

(** The requests of the end-to-end scenario. *)
Definition post_buy_milk : Request :=
  mkRequest POST tasks_path (JObj [(str "text", JStr (str "Buy milk"))]).
Definition get_all : Request := mkRequest GET tasks_path (JObj []).
Definition put_1_completed : Request :=
  mkRequest PUT (task_path (str "1")) (JObj [(str "completed", JBool true)]).
Definition delete_completed_request : Request :=
  mkRequest DELETE (task_path (str "completed")) (JObj []).

Example parseInt_12abc : JS.parseInt (str "12abc") = Some 12.
Proof. reflexivity. Qed.
Example parseInt_hex : JS.parseInt (str "0x1F") = Some 31.
Proof. reflexivity. Qed.
Example parseInt_neg : JS.parseInt (str "  -42.5") = Some (-42).
Proof. reflexivity. Qed.
Example parseInt_word : JS.parseInt (str "toggle-all") = None.
Proof. reflexivity. Qed.
Example parseInt_empty : JS.parseInt (str "") = None.
Proof. reflexivity. Qed.
Example parseInt_0x : JS.parseInt (str "0x") = None.
Proof. reflexivity. Qed.

Example getTasks_3 :
  fst (MemStorage.getTasks
         (snd (MemStorage.createTask (mkInsertTask (str "b") (Some true))
            (snd (MemStorage.createTask (mkInsertTask (str "a") None) MemStorage.new)))))
  = [mkTask 1 (str "a") false; mkTask 2 (str "b") true].
Proof. vm_compute. reflexivity. Qed.

(* ===================================================================== *)
(** ** The state monad                                                    *)
(* ===================================================================== *)

Lemma bind_unfold {A B} (m : Store A) (k : A → Store B) st :
  (m ≫= k) st = k (m st).1 (m st).2.
Proof. unfold mbind, Store_bind. by destruct (m st). Qed.

Lemma ret_unfold {A} (a : A) st : (mret a : Store A) st = (a, st).
Proof. done. Qed.

(* ===================================================================== *)
(** ** MemStorage: the single operations                                  *)
(* ===================================================================== *)

Section store_operations.
Import MemStorage.
Implicit Types (st : MemStorage) (i k : Z) (t : Task).

Global Instance by_id_total : Total by_id.
Proof. intros a b. unfold by_id. lia. Qed.

Global Instance by_id_trans : Transitive by_id.
Proof. intros a b c. unfold by_id. lia. Qed.

Lemma elem_of_values (m : gmap Z Task) t :
  t ∈ values m ↔ ∃ k, m !! k = Some t.
Proof.
  unfold values. rewrite list_elem_of_fmap. split.
  - intros [[k t'] [-> Hin]]. exists k. by apply elem_of_map_to_list.
  - intros [k Hk]. exists (k, t). split; [done|]. by apply elem_of_map_to_list.
Qed.

Lemma length_values (m : gmap Z Task) : length (values m) = size m.
Proof. unfold values. by rewrite length_fmap, length_map_to_list. Qed.

(** C10: for every store, [getTasks] answers (it is a total function
    and leaves the store as it is) the list of all the tasks of the
    store, each once, in ascending order of id: every task of the list
    has an id less than or equal to the ids of the tasks after it. *)
Theorem getTasks_all_sorted st :
  ∃ l, getTasks st = (l, st)
    ∧ l ≡ₚ values (tasks st)
    ∧ (∀ t, t ∈ l ↔ ∃ k, tasks st !! k = Some t)
    ∧ length l = size (tasks st)
    ∧ StronglySorted (λ a b, id a ≤ id b) l.
Proof.
  exists (merge_sort by_id (values (tasks st))).
  split; [done|]. split; [apply merge_sort_Permutation|].
  split; [|split].
  - intros t. rewrite merge_sort_Permutation. apply elem_of_values.
  - rewrite merge_sort_Permutation. apply length_values.
  - assert (Hs : StronglySorted by_id (merge_sort by_id (values (tasks st))))
      by (apply StronglySorted_merge_sort; apply _).
    induction Hs as [|t l Hl IH Ht]; constructor; [exact IH|].
    apply Forall_forall. intros t' Hin.
    rewrite Forall_forall in Ht. specialize (Ht t' Hin).
    unfold by_id in Ht. lia.
Qed.

(** C6: [updateTask] on an id that is not in the store answers
    [undefined] and the store is the very same afterwards. *)
Theorem updateTask_absent st i updates :
  tasks st !! i = None →
  updateTask i updates st = (None, st).
Proof. intros Hi. unfold updateTask. by rewrite Hi. Qed.

(** C8: [updateTask] on a stored id answers the merged record and
    stores it under the same key: a field absent from the partial keeps
    its value, a field present takes the new one, the id stays, every
    other key of the map and [currentId] are as before. *)
Theorem updateTask_frame st i existing updates :
  tasks st !! i = Some existing →
  ∃ updated st',
    updateTask i updates st = (Some updated, st')
    ∧ id updated = id existing
    ∧ text updated = default (text existing) (update_text updates)
    ∧ completed updated = default (completed existing) (update_completed updates)
    ∧ (update_text updates = None → text updated = text existing)
    ∧ (update_completed updates = None → completed updated = completed existing)
    ∧ tasks st' !! i = Some updated
    ∧ (∀ k, k ≠ i → tasks st' !! k = tasks st !! k)
    ∧ dom (tasks st') = dom (tasks st)
    ∧ currentId st' = currentId st.
Proof.
  intros Hi. unfold updateTask. rewrite Hi. eexists _, _.
  split; [done|]. cbn.
  repeat split.
  - by intros ->.
  - by intros ->.
  - by rewrite lookup_insert_eq.
  - intros k Hk. by rewrite lookup_insert_ne.
  - apply dom_insert_lookup_L. eauto.
Qed.

(** C9: [deleteTask] answers whether the id was in the store and
    removes it; on a stored id the first call answers [true], removes
    that record only, and the call that follows answers [false] and
    changes nothing. *)
Theorem deleteTask_twice st i existing :
  tasks st !! i = Some existing →
  ∃ st1,
    deleteTask i st = (true, st1)
    ∧ tasks st1 !! i = None
    ∧ (∀ k, k ≠ i → tasks st1 !! k = tasks st !! k)
    ∧ currentId st1 = currentId st
    ∧ deleteTask i st1 = (false, st1).
Proof.
  intros Hi. eexists. split.
  { unfold deleteTask. rewrite Hi. rewrite bool_decide_eq_true_2 by eauto. done. }
  cbn. rewrite lookup_delete_eq. repeat split.
  - intros k Hk. by rewrite lookup_delete_ne.
  - unfold deleteTask. cbn. rewrite lookup_delete_eq.
    rewrite bool_decide_eq_false_2 by apply is_Some_None.
    by rewrite delete_delete_eq.
Qed.

Lemma or_false_default (c : option bool) : or_false c = default false c.
Proof. destruct c as [[]|]; done. Qed.

Lemma createTask_eq insertTask st :
  createTask insertTask st =
    (let task := mkTask (currentId st) (insert_text insertTask)
                   (default false (insert_completed insertTask)) in
     (task, mkMemStorage (<[currentId st := task]> (tasks st))
              (currentId st + 1))).
Proof. unfold createTask. by rewrite or_false_default. Qed.

Lemma lookup_foldl_delete (l : list Task) (m : gmap Z Task) k :
  foldl (λ m task, delete (id task) m) m l !! k
  = if decide (k ∈ id <$> l) then None else m !! k.
Proof.
  revert m. induction l as [|t l IH]; intros m; cbn.
  - case_decide as H; [|done]. by apply elem_of_nil in H.
  - rewrite IH. destruct (decide (k = id t)) as [->|Hne].
    + rewrite lookup_delete_eq.
      rewrite (decide_True (P := id t ∈ id t :: _)) by left.
      by case_decide.
    + rewrite lookup_delete_ne by done.
      repeat case_decide; try done.
      * rename select (k ∉ _ :: _) into Hn. rewrite not_elem_of_cons in Hn. tauto.
      * rename select (k ∈ _ :: _) into Hin. apply elem_of_cons in Hin. tauto.
Qed.

End store_operations.

(* ===================================================================== *)
(** ** Well-formed stores: every reachable store is one                   *)
(* ===================================================================== *)

Section well_formed.
Import MemStorage.
Implicit Types (st : MemStorage) (i k : Z) (t : Task).

Lemma wf_lookup st k t :
  wf st → tasks st !! k = Some t → id t = k ∧ 1 ≤ k < currentId st.
Proof. intros [_ Hall] Hk. exact (Hall k t Hk). Qed.

Lemma wf_new : wf new.
Proof. split; [done|]. apply map_Forall_empty. Qed.

Lemma wf_fresh st : wf st → tasks st !! currentId st = None.
Proof.
  intros Hwf. destruct (tasks st !! currentId st) as [t|] eqn:E; [|done].
  apply (wf_lookup _ _ _ Hwf) in E. lia.
Qed.

Lemma wf_createTask insertTask st : wf st → wf (createTask insertTask st).2.
Proof.
  intros Hwf. destruct Hwf as [H1 Hall]. split; cbn; [lia|].
  apply map_Forall_insert_2; cbn; [lia|].
  intros k t Hk. destruct (Hall k t Hk). lia.
Qed.

Lemma wf_updateTask i updates st : wf st → wf (updateTask i updates st).2.
Proof.
  intros Hwf. unfold updateTask.
  destruct (tasks st !! i) as [t|] eqn:E; [|done].
  destruct (wf_lookup _ _ _ Hwf E) as [Hid Hrange].
  destruct Hwf as [H1 Hall]. split; cbn; [done|].
  apply map_Forall_insert_2; cbn; done.
Qed.

Lemma wf_deleteTask i st : wf st → wf (deleteTask i st).2.
Proof.
  intros [H1 Hall]. split; cbn; [done|]. by apply map_Forall_delete.
Qed.

Lemma wf_clearCompletedTasks st : wf st → wf (clearCompletedTasks st).2.
Proof.
  intros [H1 Hall]. split; cbn; [done|].
  intros k t. rewrite lookup_foldl_delete. case_decide; [done|]. apply Hall.
Qed.

Lemma wf_call c st : wf st → wf (call c st).2.
Proof.
  intros Hwf. destruct c; cbn; rewrite bind_unfold; cbn -[wf].
  - exact Hwf.
  - exact Hwf.
  - by apply (wf_createTask insertTask).
  - by apply (wf_updateTask i updates).
  - by apply (wf_deleteTask i).
  - by apply wf_clearCompletedTasks.
Qed.

Lemma wf_calls cs st : wf st → wf (calls cs st).2.
Proof.
  revert st. induction cs as [|c cs IH]; intros st Hwf; [done|].
  cbn. rewrite !bind_unfold. cbn. apply IH. by apply wf_call.
Qed.

Lemma reachable_wf st : reachable st → wf st.
Proof. intros [cs <-]. apply wf_calls, wf_new. Qed.

(** In a well-formed store no two records share an id. *)
Lemma wf_values_id_inj st t1 t2 :
  wf st → t1 ∈ values (tasks st) → t2 ∈ values (tasks st) →
  id t1 = id t2 → t1 = t2.
Proof.
  intros Hwf [k1 H1]%elem_of_values [k2 H2]%elem_of_values Hid.
  destruct (wf_lookup _ _ _ Hwf H1) as [E1 _].
  destruct (wf_lookup _ _ _ Hwf H2) as [E2 _].
  assert (k1 = k2) as -> by lia. congruence.
Qed.

End well_formed.

(* ===================================================================== *)
(** ** createTask along a history                                         *)
(* ===================================================================== *)

Section create_history.
Import MemStorage.
Implicit Types (st : MemStorage) (cs : list Call).

Lemma currentId_call c st :
  currentId (call c st).2
  = match c with
    | CallCreateTask _ => currentId st + 1
    | _ => currentId st
    end.
Proof.
  destruct c; cbn; rewrite bind_unfold; cbn; try done.
  unfold updateTask. by destruct (tasks st !! i).
Qed.

Lemma calls_cons c cs st :
  calls (c :: cs) st
  = ((call c st).1 :: (calls cs (call c st).2).1, (calls cs (call c st).2).2).
Proof.
  cbn [calls]. rewrite !bind_unfold. cbn.
  by destruct (calls cs (call c st).2).
Qed.

Lemma created_calls cs st :
  created (calls cs st).1 = imap (nth_created (currentId st)) (inserted cs).
Proof.
  revert st. induction cs as [|c cs IH]; intros st; [done|].
  rewrite calls_cons. cbn [fst].
  specialize (IH (call c st).2). rewrite currentId_call in IH.
  unfold created, inserted in *.
  destruct c; cbn [call] in *; rewrite bind_unfold in *;
    cbn [fst snd mret Store_ret omap list_omap] in *; try exact IH.
  rewrite IH. rewrite imap_cons. f_equal.
  - unfold nth_created, createTask. cbn.
    by rewrite Z.add_0_r, or_false_default.
  - apply imap_ext. intros n ins _. unfold nth_created. cbn. f_equal. lia.
Qed.

Lemma fmap_id_imap_nth_created base (l : list InsertTask) :
  id <$> imap (nth_created base) l = seqZ base (Z.of_nat (length l)).
Proof.
  revert base. induction l as [|x l IH]; intros base; [done|].
  rewrite imap_cons. cbn [fmap list_fmap length].
  rewrite seqZ_cons by lia. cbn. f_equal; [lia|].
  replace (Z.pred (Z.of_nat (S (length l)))) with (Z.of_nat (length l)) by lia.
  rewrite <- IH. f_equal. apply imap_ext. intros n ins _.
  unfold nth_created; cbn. f_equal. lia.
Qed.

Lemma fmap_text_imap_nth_created base (l : list InsertTask) :
  text <$> imap (nth_created base) l = insert_text <$> l.
Proof.
  revert base. induction l as [|x l IH]; intros base; [done|].
  rewrite imap_cons. cbn. f_equal. rewrite <- (IH (base + 1)).
  f_equal. apply imap_ext. intros n ins _. unfold nth_created; cbn. f_equal. lia.
Qed.

Lemma fmap_completed_imap_nth_created base (l : list InsertTask) :
  completed <$> imap (nth_created base) l
  = (λ ins, default false (insert_completed ins)) <$> l.
Proof.
  revert base. induction l as [|x l IH]; intros base; [done|].
  rewrite imap_cons. cbn. f_equal. rewrite <- (IH (base + 1)).
  f_equal. apply imap_ext. intros n ins _. unfold nth_created; cbn. f_equal. lia.
Qed.

Lemma StronglySorted_seqZ m n : StronglySorted Z.lt (seqZ m n).
Proof.
  destruct (decide (n ≤ 0)) as [Hn|Hn]; [rewrite seqZ_nil by done; constructor|].
  rewrite <- (Z2Nat.id n) by lia. generalize (Z.to_nat n) as len. clear.
  intros len. revert m. induction len as [|len IH]; intros m; [constructor|].
  rewrite seqZ_cons by lia.
  replace (Z.pred (Z.of_nat (S len))) with (Z.of_nat len) by lia.
  constructor; [apply IH|].
  apply Forall_forall. intros x Hx%elem_of_seqZ. lia.
Qed.

(** C5: [createTask] answers the record it stores: the id is the
    counter, the text is the given one, [completed] is the given flag
    or [false] when there is none, and the counter moves on by one.
    Along every history of store calls from a new store (updates,
    deletes and clears interleaved as one likes) the ids that the
    [createTask] calls answer are 1, 2, 3, ... in this order: strictly
    increasing, none used twice, and the id about to be handed out is
    never a key of the store. *)
Theorem createTask_sequential_ids :
  (∀ insertTask st,
      let task := mkTask (currentId st) (insert_text insertTask)
                    (default false (insert_completed insertTask)) in
      createTask insertTask st
      = (task, mkMemStorage (<[currentId st := task]> (tasks st))
                 (currentId st + 1)))
  ∧ (∀ cs,
      let ts := created (calls cs new).1 in
      id <$> ts = seqZ 1 (Z.of_nat (length (inserted cs)))
      ∧ StronglySorted Z.lt (id <$> ts)
      ∧ NoDup (id <$> ts)
      ∧ text <$> ts = insert_text <$> inserted cs
      ∧ completed <$> ts
        = (λ ins, default false (insert_completed ins)) <$> inserted cs
      ∧ tasks (calls cs new).2 !! currentId (calls cs new).2 = None).
Proof.
  split; [intros; apply createTask_eq|].
  intros cs ts. subst ts. rewrite created_calls. cbn [currentId new].
  rewrite fmap_id_imap_nth_created.
  split; [done|]. split; [apply StronglySorted_seqZ|].
  split; [apply NoDup_seqZ|].
  split; [apply fmap_text_imap_nth_created|].
  split; [apply fmap_completed_imap_nth_created|].
  apply wf_fresh, wf_calls, wf_new.
Qed.

End create_history.

(* ===================================================================== *)
(** ** clearCompletedTasks                                                *)
(* ===================================================================== *)

Section clear_completed.
Import MemStorage.
Implicit Types (st : MemStorage) (m : gmap Z Task) (k : Z) (t : Task).

Lemma filter_fmap_snd (P : Task → Prop) `{!∀ t, Decision (P t)}
    (l : list (Z * Task)) :
  filter P (l.*2) = (filter (λ kt, P kt.2) l).*2.
Proof.
  induction l as [|[k t] l IH]; [done|].
  rewrite fmap_cons, !filter_cons. cbn [snd].
  case_decide; rewrite ?fmap_cons; by rewrite IH.
Qed.

Lemma map_to_list_filter_perm (P : Z * Task → Prop)
    `{!∀ kt, Decision (P kt)} m :
  map_to_list (filter P m) ≡ₚ filter P (map_to_list m).
Proof.
  apply NoDup_Permutation.
  - apply NoDup_map_to_list.
  - apply NoDup_filter, NoDup_map_to_list.
  - intros [k t]. rewrite list_elem_of_filter, !elem_of_map_to_list.
    rewrite map_lookup_filter_Some. tauto.
Qed.

Lemma values_filter (P : Task → Prop) `{!∀ t, Decision (P t)} m :
  values (filter (λ kt, P kt.2) m) ≡ₚ filter P (values m).
Proof.
  unfold values. rewrite filter_fmap_snd.
  by rewrite map_to_list_filter_perm.
Qed.

Lemma values_filter_not_completed m :
  values (filter (λ kt, completed kt.2 = false) m)
  ≡ₚ filter (λ t, completed t = false) (values m).
Proof. exact (values_filter (λ t, completed t = false) m). Qed.

Lemma StronglySorted_filter {A} (R : relation A) (P : A → Prop)
    `{!∀ x, Decision (P x)} (l : list A) :
  StronglySorted R l → StronglySorted R (filter P l).
Proof.
  induction 1 as [|x l Hl IH Hx]; [constructor|].
  rewrite filter_cons. case_decide; [|done].
  constructor; [done|].
  apply Forall_forall. intros y [_ Hy]%list_elem_of_filter.
  rewrite Forall_forall in Hx. auto.
Qed.

(** The map that [clearCompletedTasks] leaves: the records that were
    not completed. *)
Lemma tasks_clearCompletedTasks st :
  wf st →
  tasks (clearCompletedTasks st).2
  = filter (λ kt, completed kt.2 = false) (tasks st).
Proof.
  intros Hwf. apply map_eq. intros k. cbn.
  rewrite lookup_foldl_delete, map_lookup_filter.
  destruct (tasks st !! k) as [t|] eqn:Hk; cbn.
  - destruct (wf_lookup _ _ _ Hwf Hk) as [Hid _].
    case_decide as Hin.
    + apply list_elem_of_fmap in Hin as [t' [Hidt' Hin]].
      apply list_elem_of_filter in Hin as [Hc Hin].
      assert (t' = t) as ->.
      { apply (wf_values_id_inj st); [done..| |lia].
        apply elem_of_values; eauto. }
      rewrite option_guard_False; [done|]. cbn. congruence.
    + rewrite option_guard_True; [done|]. cbn.
      destruct (completed t) eqn:Hc; [|done]. exfalso. apply Hin.
      apply list_elem_of_fmap. exists t. split; [done|].
      apply list_elem_of_filter. split; [done|]. apply elem_of_values; eauto.
  - by case_decide.
Qed.

(** C7: on a well-formed store (every reachable store is one) with [N]
    records of which [K] are completed, [clearCompletedTasks] answers
    [K] and removes those [K] records and no other: a record is in the
    store afterwards iff it was there before, unchanged, and was not
    completed; [getTasks] then answers the [N - K] tasks that the
    earlier [getTasks] listed as not completed, in the same order. *)
Theorem clearCompletedTasks_exact st :
  wf st →
  let N := size (tasks st) in
  let K := length (filter (λ t, completed t = true) (getTasks st).1) in
  ∃ st',
    clearCompletedTasks st = (K, st')
    ∧ (K ≤ N)%nat
    ∧ currentId st' = currentId st
    ∧ (∀ k t, tasks st' !! k = Some t
              ↔ tasks st !! k = Some t ∧ completed t = false)
    ∧ size (tasks st') = (N - K)%nat
    ∧ (getTasks st').1 = filter (λ t, completed t = false) (getTasks st).1
    ∧ length (getTasks st').1 = (N - K)%nat.
Proof.
  intros Hwf N K.
  assert (HK : K = length (filter (λ t, completed t = true) (values (tasks st)))).
  { subst K. cbn. by rewrite merge_sort_Permutation. }
  assert (HN : length (values (tasks st)) = N) by apply length_values.
  assert (Hsplit : (length (filter (λ t, completed t = false) (values (tasks st)))
                    + K = N)%nat).
  { rewrite HK, <- HN.
    rewrite <- (filter_app_complement (λ t, completed t = true) (values (tasks st)))
      at 3.
    rewrite length_app.
    assert (filter (λ t, ¬ completed t = true) (values (tasks st))
            = filter (λ t, completed t = false) (values (tasks st))) as ->.
    { apply list_filter_iff. intros t. by destruct (completed t). }
    lia. }
  pose proof (tasks_clearCompletedTasks st Hwf) as Htasks.
  exists (clearCompletedTasks st).2.
  assert (Hlist : (getTasks (clearCompletedTasks st).2).1
                  = filter (λ t, completed t = false) (getTasks st).1).
  { cbn [getTasks fst]. rewrite Htasks.
    apply (StronglySorted_unique_strong by_id).
    - intros t1 t2 Ht1 Ht2 H12 H21.
      rewrite merge_sort_Permutation, values_filter_not_completed in Ht1.
      apply list_elem_of_filter in Ht1 as [_ Ht1].
      apply list_elem_of_filter in Ht2 as [_ Ht2].
      rewrite merge_sort_Permutation in Ht2.
      apply (wf_values_id_inj st); [done..|]. unfold by_id in *. lia.
    - apply StronglySorted_merge_sort; apply _.
    - apply StronglySorted_filter, StronglySorted_merge_sort; apply _.
    - by rewrite !merge_sort_Permutation, values_filter_not_completed. }
  split; [by rewrite HK|]. split; [lia|]. split; [done|].
  split; [|split; [|split]].
  - intros k t. rewrite Htasks, map_lookup_filter_Some. done.
  - rewrite <- length_values, Htasks, values_filter_not_completed. lia.
  - exact Hlist.
  - rewrite Hlist. cbn. rewrite merge_sort_Permutation. lia.
Qed.

End clear_completed.

(* ===================================================================== *)
(** ** The two handlers that no request reaches                           *)
(* ===================================================================== *)

Section shadowed_handlers.
Import MemStorage Routes.
Implicit Types (st : MemStorage) (m : gmap Z Task) (k : Z) (t : Task).

Lemma fmap_id_values st :
  wf st → id <$> values (tasks st) = (map_to_list (tasks st)).*1.
Proof.
  intros Hwf. unfold values. rewrite <- list_fmap_compose.
  apply Forall_fmap_ext_1, Forall_forall. intros [k t] Hin. cbn.
  apply elem_of_map_to_list in Hin. by destruct (wf_lookup _ _ _ Hwf Hin).
Qed.

Lemma NoDup_id_getTasks st : wf st → NoDup (id <$> (getTasks st).1).
Proof.
  intros Hwf. cbn. rewrite merge_sort_Permutation, fmap_id_values by done.
  apply NoDup_fst_map_to_list.
Qed.

(** In a well-formed store the ids of [getTasks] increase strictly. *)
Lemma getTasks_strictly_sorted st :
  wf st → StronglySorted (λ a b, id a < id b) (getTasks st).1.
Proof.
  intros Hwf. pose proof (NoDup_id_getTasks st Hwf) as Hnd.
  assert (Hs : StronglySorted by_id (getTasks st).1)
    by (apply StronglySorted_merge_sort; apply _).
  induction Hs as [|t l Hl IH Ht]; [constructor|].
  rewrite fmap_cons in Hnd. apply NoDup_cons in Hnd as [Hnot Hnd].
  constructor; [by apply IH|].
  apply Forall_forall. intros t' Hin.
  rewrite Forall_forall in Ht. specialize (Ht t' Hin). unfold by_id in Ht.
  assert (id t ≠ id t'); [|lia].
  intros Heq. apply Hnot. rewrite Heq. apply list_elem_of_fmap. eauto.
Qed.

Lemma lookup_id_getTasks st t :
  wf st → t ∈ (getTasks st).1 → tasks st !! id t = Some t.
Proof.
  intros Hwf. cbn. rewrite merge_sort_Permutation.
  intros [k Hk]%elem_of_values.
  destruct (wf_lookup _ _ _ Hwf Hk) as [-> _]. done.
Qed.

Lemma lookup_foldl_insert (f : Task → Task) (l : list Task) m k :
  NoDup (id <$> l) →
  (∀ t, t ∈ l → m !! id t = Some t) →
  foldl (λ m t, <[id t := f t]> m) m l !! k
  = if decide (k ∈ id <$> l) then f <$> m !! k else m !! k.
Proof.
  revert m. induction l as [|t l IH]; intros m Hnd Hl.
  { cbn. case_decide as H; [|done]. by apply elem_of_nil in H. }
  rewrite fmap_cons in Hnd. apply NoDup_cons in Hnd as [Hnot Hnd].
  cbn [foldl]. rewrite IH; [|done|].
  - destruct (decide (k = id t)) as [->|Hne].
    + rewrite decide_False by done.
      rewrite (decide_True (P := id t ∈ id <$> t :: l)) by (rewrite fmap_cons; left).
      rewrite lookup_insert_eq, Hl by left. done.
    + rewrite lookup_insert_ne by done.
      repeat case_decide; try done.
      * rename select (k ∉ id <$> t :: l) into Hn.
        rewrite fmap_cons, not_elem_of_cons in Hn. tauto.
      * rename select (k ∈ id <$> t :: l) into Hin.
        rewrite fmap_cons, elem_of_cons in Hin. tauto.
  - intros t' Ht'. rewrite lookup_insert_ne; [apply Hl; by right|].
    intros Heq. apply Hnot. rewrite Heq. apply list_elem_of_fmap. eauto.
Qed.

(** The loop of the toggle-all handler, on tasks that are all in the
    store under their ids: no update misses. *)
Lemma toggle_loop_all_found newCompletedStatus ts (updatedTasks : list Task) st :
  NoDup (id <$> ts) →
  (∀ t, t ∈ ts → tasks st !! id t = Some t) →
  toggle_loop newCompletedStatus ts updatedTasks st
  = (updatedTasks ++ (set_completed newCompletedStatus <$> ts),
     mkMemStorage
       (foldl (λ m t, <[id t := set_completed newCompletedStatus t]> m)
          (tasks st) ts)
       (currentId st)).
Proof.
  revert updatedTasks st. induction ts as [|t ts IH]; intros acc st Hnd Hts.
  { cbn. rewrite app_nil_r. by destruct st. }
  rewrite fmap_cons in Hnd. apply NoDup_cons in Hnd as [Hnot Hnd].
  cbn [toggle_loop]. rewrite bind_unfold. unfold updateTask at 1 2.
  rewrite Hts by left. cbn [fst snd].
  rewrite IH; [|done|].
  - cbn [tasks currentId foldl]. rewrite fmap_cons.
    fold (set_completed newCompletedStatus t).
    by rewrite <- app_assoc.
  - intros t' Ht'. cbn [tasks]. rewrite lookup_insert_ne; [apply Hts; by right|].
    intros Heq. apply Hnot. rewrite Heq. apply list_elem_of_fmap. eauto.
Qed.

(** The toggle-all handler, had a request reached it: it answers 200
    with every task of the store, [completed] set to the negation of
    "all were completed", and the store holds exactly these tasks. *)
Lemma put_toggle_all_handler params_id b st :
  wf st →
  let allCompleted := forallb completed (getTasks st).1 in
  put_toggle_all params_id b st
  = (json_ok (TasksJson (set_completed (negb allCompleted) <$> (getTasks st).1)),
     mkMemStorage (set_completed (negb allCompleted) <$> tasks st)
       (currentId st)).
Proof.
  intros Hwf allCompleted. unfold put_toggle_all.
  rewrite bind_unfold. cbn [fst snd getTasks].
  rewrite bind_unfold.
  rewrite toggle_loop_all_found;
    [|apply (NoDup_id_getTasks st Hwf)|intros t; apply (lookup_id_getTasks st t Hwf)].
  cbn [fst snd app mret Store_ret]. f_equal. f_equal.
  apply map_eq. intros k.
  rewrite lookup_foldl_insert;
    [|apply (NoDup_id_getTasks st Hwf)|intros t; apply (lookup_id_getTasks st t Hwf)].
  rewrite lookup_fmap. case_decide as Hin; [done|].
  destruct (tasks st !! k) as [t|] eqn:Hk; [|done].
  exfalso. apply Hin. apply list_elem_of_fmap. exists t.
  destruct (wf_lookup _ _ _ Hwf Hk) as [Hid _]. split; [done|].
  rewrite merge_sort_Permutation. apply elem_of_values. eauto.
Qed.

Lemma forallb_completed_empty :
  forallb completed (getTasks new).1 = true
  ∧ put_toggle_all [] (JObj []) new = (json_ok (TasksJson []), new).
Proof. split; reflexivity. Qed.

(** The clear-completed handler, had a request reached it. *)
Lemma delete_completed_handler params_id b st :
  wf st →
  let K := length (filter (λ t, completed t = true) (getTasks st).1) in
  delete_completed params_id b st
  = (json_ok (DeletedCountJson K),
     mkMemStorage (filter (λ kt, completed kt.2 = false) (tasks st))
       (currentId st)).
Proof.
  intros Hwf K. unfold delete_completed. rewrite bind_unfold.
  pose proof (tasks_clearCompletedTasks st Hwf) as Htasks.
  destruct (clearCompletedTasks st) as [count st'] eqn:Hrun.
  cbn [fst snd mret Store_ret] in *.
  unfold clearCompletedTasks in Hrun. injection Hrun as <- <-.
  cbn [tasks] in Htasks. rewrite Htasks. f_equal. f_equal. f_equal.
  subst K. cbn. by rewrite merge_sort_Permutation.
Qed.

End shadowed_handlers.

(* ===================================================================== *)
(** ** The routes                                                         *)
(* ===================================================================== *)

Section routes.
Import MemStorage Routes.
Implicit Types (st : MemStorage) (b : json).

(** C1: a request [PUT /api/tasks/toggle-all] never reaches the
    toggle-all handler.  The route [PUT /api/tasks/:id] is registered
    before it and matches with [id = "toggle-all"], which [parseInt]
    maps to NaN: on every store and with every body the handler that
    runs is the one of [PUT /api/tasks/:id], the answer is 400 "Invalid
    task ID", the store is left as it was, and so the answer is never
    200 with the toggled tasks. *)
Theorem toggle_all_request_is_400 st b :
  let req := mkRequest PUT (task_path (str "toggle-all")) b in
  dispatch registerRoutes req = Some (put_task (str "toggle-all") b)
  ∧ handle req st
    = Some (mkResponse 400 (MessageJson (Msg "Invalid task ID")), st)
  ∧ ¬ ∃ ts st', handle req st = Some (mkResponse 200 (TasksJson ts), st').
Proof.
  cbn zeta.
  assert (Hd : dispatch registerRoutes
                 (mkRequest PUT (task_path (str "toggle-all")) b)
               = Some (put_task (str "toggle-all") b)) by reflexivity.
  split; [exact Hd|]. unfold handle. rewrite Hd.
  assert (Hnan : JS.parseInt (str "toggle-all") = None) by reflexivity.
  unfold put_task. rewrite Hnan. split; [done|].
  intros (ts & st' & H). discriminate H.
Qed.

(** C2: a request [DELETE /api/tasks/completed] never reaches the
    clear-completed handler.  The route [DELETE /api/tasks/:id] is
    registered before it and matches with [id = "completed"], which
    [parseInt] maps to NaN: on every store the handler that runs is the
    one of [DELETE /api/tasks/:id], the answer is 400 "Invalid task ID",
    no task is removed, and so the answer is never 200 with a
    [deletedCount]. *)
Theorem clear_completed_request_is_400 st b :
  let req := mkRequest DELETE (task_path (str "completed")) b in
  dispatch registerRoutes req = Some (delete_task (str "completed") b)
  ∧ handle req st
    = Some (mkResponse 400 (MessageJson (Msg "Invalid task ID")), st)
  ∧ ¬ ∃ K st', handle req st = Some (mkResponse 200 (DeletedCountJson K), st').
Proof.
  cbn zeta.
  assert (Hd : dispatch registerRoutes
                 (mkRequest DELETE (task_path (str "completed")) b)
               = Some (delete_task (str "completed") b)) by reflexivity.
  split; [exact Hd|]. unfold handle. rewrite Hd.
  assert (Hnan : JS.parseInt (str "completed") = None) by reflexivity.
  unfold delete_task. rewrite Hnan. split; [done|].
  intros (K & st' & H). discriminate H.
Qed.

(** What [PUT /api/tasks/:id] does with the body [{"text": ""}]: the
    update schema has no length check, the empty text is stored. *)
Lemma put_task_accepts_empty_text st params_id i existing :
  JS.parseInt params_id = Some i →
  tasks st !! i = Some existing →
  put_task params_id (JObj [(str "text", JStr [])]) st
  = (json_ok (TaskJson (mkTask (id existing) [] (completed existing))),
     mkMemStorage
       (<[i := mkTask (id existing) [] (completed existing)]> (tasks st))
       (currentId st)).
Proof.
  intros Hid Hi. unfold put_task. rewrite Hid.
  assert (Schema.updateTaskSchema (JObj [(str "text", JStr [])])
          = inr (mkUpdateTask (Some []) None)) as -> by reflexivity.
  rewrite bind_unfold. unfold updateTask. rewrite Hi. done.
Qed.

(** What [POST /api/tasks] stores has a text of 1 to 500 code units;
    a body that fails the insert schema changes nothing. *)
Lemma post_task_text_checked params_id b st :
  (∃ t, post_task params_id b st
        = (mkResponse 201 (TaskJson t),
           mkMemStorage (<[currentId st := t]> (tasks st)) (currentId st + 1))
        ∧ id t = currentId st
        ∧ (1 ≤ length (text t) ≤ 500)%nat)
  ∨ (∃ message, post_task params_id b st
                 = (mkResponse 400 (MessageJson message), st)).
Proof.
  unfold post_task.
  destruct (Schema.insertTaskSchema b) as [issue|ins] eqn:E; [right; eauto|].
  left. eexists. rewrite bind_unfold. split; [done|]. split; [done|]. cbn.
  unfold Schema.insertTaskSchema in E.
  destruct b as [| | | | |fields]; try done.
  unfold Schema.text_1_500 in E.
  destruct (get_field (str "text") fields) as [[| | |s| |]|]; try done.
  destruct (length s <? 1)%nat eqn:E1; [done|].
  destruct (500 <? length s)%nat eqn:E2; [done|].
  destruct (Schema.optional_boolean _); [done|].
  injection E as <-. cbn.
  apply Nat.ltb_ge in E1, E2. lia.
Qed.

(** C3: the store reached by the two valid requests
    [POST /api/tasks {"text": "Buy milk"}] and
    [PUT /api/tasks/1 {"text": ""}] holds a task whose text is empty:
    both requests pass validation (201, then 200), because
    [updateTaskSchema] lacks the [min(1)] check of [insertTaskSchema]. *)
Theorem put_request_stores_empty_text :
  let post := mkRequest POST tasks_path
                (JObj [(str "text", JStr (str "Buy milk"))]) in
  let put := mkRequest PUT (task_path (str "1"))
               (JObj [(str "text", JStr [])]) in
  ∃ st,
    serve [post; put] new
    = ([Some (mkResponse 201 (TaskJson (mkTask 1 (str "Buy milk") false)));
        Some (mkResponse 200 (TaskJson (mkTask 1 [] false)))], st)
    ∧ tasks st !! 1 = Some (mkTask 1 [] false)
    ∧ text (mkTask 1 [] false) = [].
Proof. eexists. split; [reflexivity|]. split; reflexivity. Qed.

(** C4, as stated, fails: ["1abc"] is not an integer, yet
    [DELETE /api/tasks/1abc] answers 204 and removes task 1, because
    [parseInt] reads the leading digits and ignores the rest. *)
Lemma delete_1abc_removes_task_1 :
  let st := mkMemStorage {[1 := mkTask 1 (str "a") false]} 2 in
  let req := mkRequest DELETE (task_path (str "1abc")) (JObj []) in
  is_integer (str "1abc") = false
  ∧ handle req st = Some (mkResponse 204 NoBody, mkMemStorage ∅ 2)
  ∧ ¬ rejected_400 req st.
Proof.
  cbn zeta. split; [reflexivity|].
  assert (H : handle (mkRequest DELETE (task_path (str "1abc")) (JObj []))
                (mkMemStorage {[1 := mkTask 1 (str "a") false]} 2)
              = Some (mkResponse 204 NoBody, mkMemStorage ∅ 2))
    by reflexivity.
  split; [exact H|]. intros [p Hp]. rewrite H in Hp. discriminate Hp.
Qed.

Lemma handle_put_task s b st :
  s ≠ [] →
  handle (mkRequest PUT (task_path s) b) st = Some (put_task s b st).
Proof.
  intros Hs. unfold handle, task_path. cbn.
  destruct (decide (s = [])) as [->|_]; [done|]. reflexivity.
Qed.

Lemma handle_delete_task s b st :
  s ≠ [] →
  handle (mkRequest DELETE (task_path s) b) st = Some (delete_task s b st).
Proof.
  intros Hs. unfold handle, task_path. cbn.
  destruct (decide (s = [])) as [->|_]; [done|]. reflexivity.
Qed.

(** C4, amended: a request to [PUT /api/tasks/:id] or
    [DELETE /api/tasks/:id] whose id has no numeric prefix ([parseInt]
    of it is NaN) is answered 400 "Invalid task ID" and the store is
    not modified. *)
Theorem nan_id_is_400 m s b st :
  m = PUT ∨ m = DELETE →
  s ≠ [] →
  JS.parseInt s = None →
  handle (mkRequest m (task_path s) b) st
  = Some (mkResponse 400 (MessageJson (Msg "Invalid task ID")), st).
Proof.
  intros [-> | ->] Hs Hnan.
  - rewrite handle_put_task by done. unfold put_task. by rewrite Hnan.
  - rewrite handle_delete_task by done. unfold delete_task. by rewrite Hnan.
Qed.

(** The other half of the id check: as soon as [parseInt] finds a
    number the request goes on to the store under that id, whatever
    follows the digits. *)
Lemma numeric_prefix_id_goes_to_store s i b st :
  JS.parseInt s = Some i →
  handle (mkRequest DELETE (task_path s) b) st
  = Some (if bool_decide (is_Some (tasks st !! i))
          then (mkResponse 204 NoBody,
                mkMemStorage (delete i (tasks st)) (currentId st))
          else (mkResponse 404 (MessageJson (Msg "Task not found")),
                mkMemStorage (delete i (tasks st)) (currentId st))).
Proof.
  intros Hid. rewrite handle_delete_task by (by intros ->).
  unfold delete_task. rewrite Hid, bind_unfold. cbn.
  by destruct (bool_decide _).
Qed.

(** The id check in plain terms: [parseInt] is NaN exactly when, after
    the leading white space, the sign and the [0x] prefix, there is no
    digit of the radix at the start of what is left. *)
Lemma parseInt_NaN_iff (s : jsstring) :
  JS.parseInt s = None
  ↔ match (JS.strip_hex_prefix (JS.strip_sign (JS.trim_start s)).2) with
    | (radix, []) => True
    | (radix, c :: _) => JS.digit_value radix c = None
    end.
Proof.
  unfold JS.parseInt.
  destruct (JS.strip_sign (JS.trim_start s)) as [sign s1]. cbn [snd].
  destruct (JS.strip_hex_prefix s1) as [radix [|c s2]]; [done|].
  cbn [JS.digits_prefix]. by destruct (JS.digit_value radix c).
Qed.

(** Every handler keeps the store well-formed, and so does the server. *)
Lemma wf_toggle_loop newCompletedStatus ts (updatedTasks : list Task) st :
  wf st → wf (toggle_loop newCompletedStatus ts updatedTasks st).2.
Proof.
  revert updatedTasks st. induction ts as [|t ts IH]; intros acc st Hwf; [done|].
  cbn [toggle_loop]. rewrite bind_unfold. apply IH. by apply wf_updateTask.
Qed.

Lemma wf_route_handler r params_id b st :
  r ∈ registerRoutes → wf st → wf (route_handler r params_id b st).2.
Proof.
  unfold registerRoutes. intros Hin Hwf.
  repeat (apply elem_of_cons in Hin as [->|Hin]); cbn [route_handler].
  - done.
  - unfold post_task. destruct (Schema.insertTaskSchema b); [done|].
    rewrite bind_unfold. by apply (wf_createTask i).
  - unfold put_task. destruct (JS.parseInt params_id) as [i|]; [|done].
    destruct (Schema.updateTaskSchema b) as [|u]; [done|].
    rewrite bind_unfold.
    pose proof (wf_updateTask i u st Hwf) as Hwf'.
    by destruct (updateTask i u st) as [[?|] ?].
  - unfold delete_task. destruct (JS.parseInt params_id) as [i|]; [|done].
    rewrite bind_unfold.
    pose proof (wf_deleteTask i st Hwf) as Hwf'.
    by destruct (deleteTask i st) as [[] ?].
  - unfold delete_completed. rewrite bind_unfold.
    by apply wf_clearCompletedTasks.
  - unfold put_toggle_all. rewrite !bind_unfold. cbn [fst snd getTasks].
    by apply wf_toggle_loop.
  - by apply elem_of_nil in Hin.
Qed.

Lemma dispatch_elem_of routes req h :
  dispatch routes req = Some h →
  ∃ r params_id, r ∈ routes ∧ h = route_handler r params_id (body req).
Proof.
  induction routes as [|r routes IH]; [done|]. cbn [dispatch].
  destruct (decide (route_method r = method req)) as [_|_].
  - destruct (match_path (route_path r) (path req)) as [params_id|].
    + intros [= <-]. exists r, params_id. split; [left|done].
    + intros (r' & p & Hin & ->)%IH. exists r', p. split; [by right|done].
  - intros (r' & p & Hin & ->)%IH. exists r', p. split; [by right|done].
Qed.

Lemma wf_handle req st res st' :
  wf st → handle req st = Some (res, st') → wf st'.
Proof.
  intros Hwf. unfold handle.
  destruct (dispatch registerRoutes req) as [h|] eqn:Hd; [|done].
  apply dispatch_elem_of in Hd as (r & p & Hin & ->).
  intros [= Hrun]. pose proof (wf_route_handler r p (body req) st Hin Hwf) as H.
  by rewrite Hrun in H.
Qed.

Lemma wf_serve reqs st : wf st → wf (serve reqs st).2.
Proof.
  revert st. induction reqs as [|req reqs IH]; intros st Hwf; [done|].
  cbn [serve]. destruct (handle req st) as [[res st']|] eqn:Hh.
  - apply (wf_handle _ _ _ _ Hwf), IH in Hh. by destruct (serve reqs st').
  - apply IH in Hwf. by destruct (serve reqs st).
Qed.

End routes.

Lemma nan_id_is_400_witness :
  Routes.handle (mkRequest DELETE (task_path (str "abc")) (JObj []))
    MemStorage.new
  = Some (mkResponse 400 (MessageJson (Msg "Invalid task ID")), MemStorage.new).
Proof.
  apply (nan_id_is_400 DELETE (str "abc") (JObj []) MemStorage.new).
  - right. reflexivity.
  - discriminate.
  - reflexivity.
Defined.

(* ===================================================================== *)
(** ** The theorems at a concrete store                                   *)
(* ===================================================================== *)

Lemma wf_store_abc : wf store_abc.
Proof. apply wf_calls, wf_new. Qed.

Lemma updateTask_absent_witness :
  MemStorage.updateTask 7 (mkUpdateTask None (Some true)) store_abc
  = (None, store_abc).
Proof. apply (updateTask_absent store_abc 7). reflexivity. Defined.

Lemma updateTask_frame_witness :
  ∃ updated st',
    MemStorage.updateTask 2 (mkUpdateTask (Some (str "B")) None) store_abc
    = (Some updated, st')
    ∧ updated = mkTask 2 (str "B") true
    ∧ tasks st' !! 1 = Some (mkTask 1 (str "a") false)
    ∧ tasks st' !! 3 = Some (mkTask 3 (str "c") true).
Proof.
  destruct (updateTask_frame store_abc 2 (mkTask 2 (str "b") true)
              (mkUpdateTask (Some (str "B")) None))
    as (updated & st' & Hrun & Hid & Htext & Hcompleted & _ & _ & _ & Hframe & _).
  { reflexivity. }
  exists updated, st'. split; [exact Hrun|]. split.
  - destruct updated as [i t c]. cbn in Hid, Htext, Hcompleted.
    rewrite Hid, Htext, Hcompleted. reflexivity.
  - split; rewrite Hframe by discriminate; reflexivity.
Defined.

Lemma deleteTask_twice_witness :
  ∃ st1,
    MemStorage.deleteTask 2 store_abc = (true, st1)
    ∧ tasks st1 !! 2 = None
    ∧ MemStorage.deleteTask 2 st1 = (false, st1).
Proof.
  destruct (deleteTask_twice store_abc 2 (mkTask 2 (str "b") true))
    as (st1 & H1 & Hgone & _ & _ & H2).
  { reflexivity. }
  exists st1. split; [exact H1|]. split; [exact Hgone|exact H2].
Defined.

Lemma clearCompletedTasks_exact_witness :
  ∃ st',
    MemStorage.clearCompletedTasks store_abc = (2%nat, st')
    ∧ (MemStorage.getTasks st').1 = [mkTask 1 (str "a") false].
Proof.
  destruct (clearCompletedTasks_exact store_abc)
    as (st' & Hrun & _ & _ & _ & _ & Hlist & _).
  { apply (bool_decide_unpack _). vm_compute. exact I. }
  exists st'. split; [exact Hrun|]. rewrite Hlist. reflexivity.
Defined.

(* ===================================================================== *)
(** ** The scenarios of the interface contract, run on the model          *)
(* ===================================================================== *)

(** An empty text and a text of 501 code units fail the insert schema;
    nothing is stored. *)
Example post_empty_text :
  Routes.handle (mkRequest POST tasks_path (JObj [(str "text", JStr [])]))
    MemStorage.new
  = Some (mkResponse 400 (MessageJson (Msg "Task text is required")),
          MemStorage.new).
Proof. reflexivity. Qed.

Example post_text_501 :
  Routes.handle
    (mkRequest POST tasks_path (JObj [(str "text", JStr (replicate 501 120%N))]))
    MemStorage.new
  = Some (mkResponse 400 (MessageJson (Msg "Task text is too long")),
          MemStorage.new).
Proof. vm_compute. reflexivity. Qed.

(** The toggle-all handler called directly on [{completed: true},
    {completed: false}]: both become [true], and on a second call both
    become [false]. *)
Example put_toggle_all_mixed :
  ∃ st1 st2,
    Routes.put_toggle_all [] (JObj []) store_mixed
    = (json_ok (TasksJson [mkTask 1 (str "a") true; mkTask 2 (str "b") true]),
       st1)
    ∧ Routes.put_toggle_all [] (JObj []) st1
      = (json_ok (TasksJson [mkTask 1 (str "a") false; mkTask 2 (str "b") false]),
         st2).
Proof. eexists _, _. split; vm_compute; reflexivity. Qed.

(** The same two requests sent through the router are both answered 400
    and change nothing. *)
Example toggle_all_request_mixed :
  serve [mkRequest PUT (task_path (str "toggle-all")) (JObj []);
         mkRequest PUT (task_path (str "toggle-all")) (JObj [])] store_mixed
  = ([Some (mkResponse 400 (MessageJson (Msg "Invalid task ID")));
      Some (mkResponse 400 (MessageJson (Msg "Invalid task ID")))],
     store_mixed).
Proof. vm_compute. reflexivity. Qed.

(** The end-to-end scenario: the create, the list and the update answer
    as expected; the clear-completed request is answered 400 and the last
    list still shows the completed task. *)
Example end_to_end :
  (serve [post_buy_milk; get_all; put_1_completed;
          delete_completed_request; get_all] MemStorage.new).1
  = [Some (mkResponse 201 (TaskJson (mkTask 1 (str "Buy milk") false)));
     Some (json_ok (TasksJson [mkTask 1 (str "Buy milk") false]));
     Some (json_ok (TaskJson (mkTask 1 (str "Buy milk") true)));
     Some (mkResponse 400 (MessageJson (Msg "Invalid task ID")));
     Some (json_ok (TasksJson [mkTask 1 (str "Buy milk") true]))].
Proof. vm_compute. reflexivity. Qed.

(* ===================================================================== *)
(** ** MemStorage: how the operations compose                             *)
(* ===================================================================== *)

Section store_composition.
Import MemStorage.
Implicit Types (st : MemStorage) (m : gmap Z Task) (i k : Z) (t : Task).

Lemma MemStorage_eta st : mkMemStorage (tasks st) (currentId st) = st.
Proof. by destruct st. Qed.

Lemma currentId_calls cs st :
  currentId (calls cs st).2 = currentId st + Z.of_nat (length (inserted cs)).
Proof.
  revert st. induction cs as [|c cs IH]; intros st; [cbn; lia|].
  rewrite calls_cons. cbn [snd]. rewrite IH, currentId_call.
  unfold inserted. destruct c; cbn [omap list_omap length]; lia.
Qed.

Lemma dom_below_currentId st :
  wf st → dom (tasks st) ⊆ list_to_set (seqZ 1 (currentId st - 1)).
Proof.
  intros Hwf k [t Hk]%elem_of_dom.
  destruct (wf_lookup _ _ _ Hwf Hk) as [_ Hr].
  apply elem_of_list_to_set, elem_of_seqZ. lia.
Qed.

(** X1: whatever calls were made on a store since [new MemStorage()],
    the counter is one more than the number of [createTask] calls
    (nothing else moves it, a delete gives no id back), every record is
    stored under its own id, the ids in the store lie between 1 and the
    counter, and the store holds at most as many records as there were
    [createTask] calls. *)
Theorem history_store_invariant (cs : list Call) :
  let st := (calls cs new).2 in
  currentId st = 1 + Z.of_nat (length (inserted cs))
  ∧ (∀ k t, tasks st !! k = Some t → id t = k ∧ 1 ≤ k < currentId st)
  ∧ (size (tasks st) ≤ length (inserted cs))%nat.
Proof.
  cbn zeta. pose proof (wf_calls cs new wf_new) as Hwf.
  pose proof (currentId_calls cs new) as Hc. cbn [currentId new] in Hc.
  split; [exact Hc|]. split; [intros k t; by apply wf_lookup|].
  rewrite <- size_dom.
  etrans; [apply subseteq_size, dom_below_currentId, Hwf|].
  rewrite size_list_to_set by apply NoDup_seqZ.
  rewrite length_seqZ, Hc. lia.
Qed.

Lemma values_insert_fresh m i t :
  m !! i = None → values (<[i := t]> m) ≡ₚ t :: values m.
Proof.
  intros Hi. unfold values. by rewrite map_to_list_insert.
Qed.

(** X2: on a well-formed store [createTask] overwrites nothing: the id
    it hands out was free, every record that was stored is still stored
    unchanged, the store has one record more, and [getTasks] is the
    earlier list with the new task added at the end. *)
Theorem createTask_appends st insertTask :
  wf st →
  let task := (createTask insertTask st).1 in
  let st' := (createTask insertTask st).2 in
  tasks st !! id task = None
  ∧ (∀ k t, tasks st !! k = Some t → tasks st' !! k = Some t)
  ∧ size (tasks st') = S (size (tasks st))
  ∧ (getTasks st').1 = (getTasks st).1 ++ [task].
Proof.
  intros Hwf task st'.
  pose proof (wf_fresh st Hwf) as Hfresh.
  pose proof (wf_createTask insertTask st Hwf) as Hwf'. fold st' in Hwf'.
  assert (Htasks : tasks st' = <[currentId st := task]> (tasks st)) by done.
  split; [exact Hfresh|]. split; [|split].
  - intros k t Hk. rewrite Htasks, lookup_insert_ne; [done|]. congruence.
  - rewrite Htasks. by apply map_size_insert_None.
  - cbn [getTasks fst]. apply (StronglySorted_unique_strong by_id).
    + intros t1 t2 Ht1 Ht2 H12 H21.
      rewrite merge_sort_Permutation in Ht1.
      assert (Ht2' : t2 ∈ values (tasks st')).
      { rewrite Htasks, values_insert_fresh by done.
        apply elem_of_app in Ht2 as [Ht2|Ht2].
        - right. by rewrite merge_sort_Permutation in Ht2.
        - apply list_elem_of_singleton in Ht2 as ->. left. }
      apply (wf_values_id_inj st'); [done..|]. unfold by_id in *. lia.
    + apply StronglySorted_merge_sort; apply _.
    + apply StronglySorted_app_2.
      * intros t1 t2 Ht1 ->%list_elem_of_singleton.
        rewrite merge_sort_Permutation in Ht1.
        apply elem_of_values in Ht1 as [k Hk].
        destruct (wf_lookup _ _ _ Hwf Hk) as [Hid Hr].
        unfold by_id. subst task. cbn. lia.
      * apply StronglySorted_merge_sort; apply _.
      * repeat constructor.
    + rewrite !merge_sort_Permutation, Htasks, values_insert_fresh by done.
      by rewrite <- Permutation_cons_append.
Qed.

(** X3: [getTask] reads what the last write to an id left and changes
    nothing: after [createTask] the id just handed out gives the created
    record, after [updateTask] the id gives what [updateTask] answered
    (the merged record, or [undefined] when the id is unknown), after
    [deleteTask] it gives [undefined]; a write to one id is not seen
    under any other id. *)
Theorem getTask_reads_last_write st i :
  (∀ ins, getTask (id (createTask ins st).1) (createTask ins st).2
          = (Some (createTask ins st).1, (createTask ins st).2))
  ∧ (∀ u, getTask i (updateTask i u st).2
          = ((updateTask i u st).1, (updateTask i u st).2))
  ∧ getTask i (deleteTask i st).2 = (None, (deleteTask i st).2)
  ∧ (∀ j u, j ≠ i →
       (getTask j (updateTask i u st).2).1 = (getTask j st).1
       ∧ (getTask j (deleteTask i st).2).1 = (getTask j st).1).
Proof.
  split; [|split; [|split]].
  - intros ins. unfold getTask. cbn. by rewrite lookup_insert_eq.
  - intros u. unfold getTask, updateTask.
    destruct (tasks st !! i) as [t|] eqn:Hi; cbn.
    + by rewrite lookup_insert_eq.
    + by rewrite Hi.
  - unfold getTask. cbn. by rewrite lookup_delete_eq.
  - intros j u Hj. unfold getTask, updateTask. split.
    + destruct (tasks st !! i) as [t|]; cbn; [|done].
      by rewrite lookup_insert_ne.
    + cbn. by rewrite lookup_delete_ne.
Qed.

(** X4: [deleteTask] on an id that is not in the store answers [false]
    and leaves the store exactly as it was. *)
Theorem deleteTask_absent st i :
  tasks st !! i = None → deleteTask i st = (false, st).
Proof.
  intros Hi. unfold deleteTask. rewrite Hi, delete_id by done.
  rewrite bool_decide_eq_false_2 by apply is_Some_None.
  by rewrite MemStorage_eta.
Qed.

(** X5: on a well-formed store the list of [getTasks] has strictly
    increasing ids, so no id occurs twice in it, and every task of the
    list is the record stored under its id. *)
Theorem getTasks_ids_increase st :
  wf st →
  StronglySorted (λ a b, id a < id b) (getTasks st).1
  ∧ NoDup (id <$> (getTasks st).1)
  ∧ (∀ t, t ∈ (getTasks st).1 → getTask (id t) st = (Some t, st)).
Proof.
  intros Hwf. split; [by apply getTasks_strictly_sorted|].
  split; [by apply NoDup_id_getTasks|].
  intros t Ht. unfold getTask. by rewrite (lookup_id_getTasks st t Hwf Ht).
Qed.

Lemma filter_none {A} (P : A → Prop) `{!∀ x, Decision (P x)} (l : list A) :
  Forall (λ x, ¬ P x) l → filter P l = [].
Proof.
  induction 1 as [|x l Hx _ IH]; [done|].
  rewrite filter_cons. by rewrite decide_False.
Qed.

Lemma filter_completed_values_nil m :
  map_Forall (λ _ t, completed t = false) m →
  filter (λ t, completed t = true) (values m) = [].
Proof.
  intros Hall. apply filter_none, Forall_forall.
  intros t [k Hk]%elem_of_values. rewrite (Hall k t Hk). done.
Qed.

(** X6: on a well-formed store, after [clearCompletedTasks] no task of
    the store is completed, and a second [clearCompletedTasks] answers 0
    and leaves the store exactly as the first one left it. *)
Theorem clearCompletedTasks_idempotent st :
  wf st →
  let st1 := (clearCompletedTasks st).2 in
  Forall (λ t, completed t = false) (getTasks st1).1
  ∧ clearCompletedTasks st1 = (0%nat, st1).
Proof.
  intros Hwf st1.
  assert (Hall : map_Forall (λ _ t, completed t = false) (tasks st1)).
  { unfold st1. rewrite tasks_clearCompletedTasks by done.
    intros k t [_ Hc]%map_lookup_filter_Some. exact Hc. }
  clearbody st1. split.
  - apply Forall_forall. intros t. cbn. rewrite merge_sort_Permutation.
    intros [k Hk]%elem_of_values. exact (Hall k t Hk).
  - unfold clearCompletedTasks at 1.
    rewrite filter_completed_values_nil by done. cbn [length foldl].
    by rewrite MemStorage_eta.
Qed.

Lemma spread_spread t u : spread (spread t u) u = spread t u.
Proof. unfold spread. destruct u as [[?|] [?|]]; done. Qed.

Lemma spread_empty t : spread t (mkUpdateTask None None) = t.
Proof. by destruct t. Qed.

(** X7: [updateTask] is idempotent, and the empty partial changes
    nothing: on a stored id, a second [updateTask] with the same partial
    answers the same record and leaves the store as the first one left
    it; [updateTask] with neither [text] nor [completed] answers the
    stored record and the store is as before. *)
Theorem updateTask_idempotent st i existing updates :
  tasks st !! i = Some existing →
  updateTask i updates (updateTask i updates st).2 = updateTask i updates st
  ∧ updateTask i (mkUpdateTask None None) st = (Some existing, st).
Proof.
  intros Hi. unfold updateTask. rewrite Hi. cbn. rewrite lookup_insert_eq.
  rewrite spread_spread, insert_insert_eq. split; [done|].
  rewrite spread_empty, insert_id by done. by rewrite MemStorage_eta.
Qed.

(** X8: on a well-formed store, deleting the task that [createTask] has
    just created answers [true] and gives back the earlier map of tasks,
    but not the id: the counter stays one further, so the next
    [createTask] hands out a new id. *)
Theorem createTask_then_deleteTask st insertTask :
  wf st →
  let created := createTask insertTask st in
  deleteTask (id created.1) created.2
  = (true, mkMemStorage (tasks st) (currentId st + 1))
  ∧ id (createTask insertTask (deleteTask (id created.1) created.2).2).1
    = id created.1 + 1.
Proof.
  intros Hwf created. pose proof (wf_fresh st Hwf) as Hfresh.
  assert (Hdel : deleteTask (id created.1) created.2
                 = (true, mkMemStorage (tasks st) (currentId st + 1))).
  { unfold deleteTask. cbn. rewrite lookup_insert_eq.
    rewrite bool_decide_eq_true_2 by eauto.
    by rewrite delete_insert_id. }
  split; [exact Hdel|]. by rewrite Hdel.
Qed.

End store_composition.

(* ===================================================================== *)
(** ** The page's URLs read back by the server                            *)
(* ===================================================================== *)

Section number_strings.
Implicit Types (s : jsstring) (c d n : N).

Lemma is_dec_digit_cases c :
  is_dec_digit c →
  c ∈ [48; 49; 50; 51; 52; 53; 54; 55; 56; 57]%N.
Proof.
  unfold is_dec_digit. intros H. rewrite !elem_of_cons. lia.
Qed.

Ltac dec_digit_cases H :=
  apply is_dec_digit_cases in H; rewrite !elem_of_cons in H;
  repeat (destruct H as [->|H]); [..|by apply elem_of_nil in H].

Lemma dec_digit_value c :
  is_dec_digit c → JS.digit_value 10 c = Some (c - 48)%N.
Proof. intros H. dec_digit_cases H; reflexivity. Qed.

Lemma dec_digit_not_white c : is_dec_digit c → JS.is_white c = false.
Proof. intros H. dec_digit_cases H; reflexivity. Qed.

Lemma dec_digit_strip_sign c s :
  is_dec_digit c → JS.strip_sign (c :: s) = (1, c :: s).
Proof. intros H. dec_digit_cases H; reflexivity. Qed.

Lemma dec_digits_strip_hex_prefix s :
  Forall is_dec_digit s → JS.strip_hex_prefix s = (10%N, s).
Proof.
  intros Hs. destruct s as [|c0 [|c1 s]]; [done..|].
  apply Forall_cons in Hs as [_ [H1 _]%Forall_cons].
  unfold JS.strip_hex_prefix.
  assert ((c1 =? 120) || (c1 =? 88) = false)%N as ->
    by (dec_digit_cases H1; reflexivity).
  by rewrite andb_false_r.
Qed.

Lemma dec_digits_prefix s :
  Forall is_dec_digit s →
  JS.digits_prefix 10 s = (λ c, c - 48)%N <$> s.
Proof.
  induction 1 as [|c s Hc _ IH]; [done|].
  cbn [JS.digits_prefix]. rewrite dec_digit_value by done.
  by rewrite IH.
Qed.

(** [parseInt] of a non-empty string of decimal digits. *)
Lemma parseInt_dec_digits s :
  s ≠ [] → Forall is_dec_digit s →
  JS.parseInt s = Some (JS.digits_value 10 ((λ c, c - 48)%N <$> s)).
Proof.
  intros Hne Hs. destruct s as [|c s]; [done|].
  pose proof Hs as [Hc _]%Forall_cons.
  unfold JS.parseInt. cbn [JS.trim_start].
  rewrite dec_digit_not_white, dec_digit_strip_sign by done. cbv beta iota.
  rewrite dec_digits_strip_hex_prefix by done. cbv beta iota.
  rewrite dec_digits_prefix by done.
  rewrite fmap_cons. f_equal. lia.
Qed.

(** The same after a minus sign. *)
Lemma parseInt_minus_dec_digits s :
  s ≠ [] → Forall is_dec_digit s →
  JS.parseInt (45%N :: s)
  = Some (- JS.digits_value 10 ((λ c, c - 48)%N <$> s)).
Proof.
  intros Hne Hs. destruct s as [|c s]; [done|].
  unfold JS.parseInt.
  change (JS.strip_sign (JS.trim_start (45%N :: c :: s))) with (-1, c :: s).
  cbv beta iota.
  rewrite dec_digits_strip_hex_prefix by done. cbv beta iota.
  rewrite dec_digits_prefix by done.
  rewrite fmap_cons. f_equal; lia.
Qed.

Lemma decimal_rev_digits fuel n : Forall is_dec_digit (JS.decimal_rev fuel n).
Proof.
  revert n. induction fuel as [|fuel IH]; intros n; [constructor|].
  cbn [JS.decimal_rev]. constructor.
  - unfold is_dec_digit.
    assert (n mod 10 < 10)%N as Hm by (apply N.mod_upper_bound; lia).
    revert Hm. generalize (n mod 10)%N. intros m Hm. lia.
  - destruct (n / 10 =? 0)%N; [constructor|apply IH].
Qed.

Lemma decimal_digits n : JS.decimal n ≠ [] ∧ Forall is_dec_digit (JS.decimal n).
Proof.
  unfold JS.decimal. split.
  - cbn [JS.decimal_rev]. rewrite reverse_cons.
    intros H. by apply app_nil in H as [_ ?].
  - apply Forall_reverse, decimal_rev_digits.
Qed.

Lemma digits_value_snoc radix (ds : list N) d :
  JS.digits_value radix (ds ++ [d])
  = JS.digits_value radix ds * Z.of_N radix + Z.of_N d.
Proof. unfold JS.digits_value. by rewrite foldl_app. Qed.

Lemma digits_value_reverse (ds : list N) :
  JS.digits_value 10 (reverse ds) = value_rev ds.
Proof.
  induction ds as [|d ds IH]; [done|].
  rewrite reverse_cons, digits_value_snoc, IH. reflexivity.
Qed.

Lemma value_rev_cons d (ds : list N) :
  value_rev (d :: ds) = value_rev ds * 10 + Z.of_N d.
Proof. reflexivity. Qed.

Lemma decimal_rev_S fuel n :
  JS.decimal_rev (S fuel) n
  = (48 + n mod 10)%N
    :: (if (n / 10 =? 0)%N then [] else JS.decimal_rev fuel (n / 10)%N).
Proof. reflexivity. Qed.

Lemma value_decimal_rev fuel n :
  (n < 2 ^ N.of_nat fuel)%N →
  value_rev ((λ c, c - 48)%N <$> JS.decimal_rev (S fuel) n) = Z.of_N n.
Proof.
  revert n. induction fuel as [|fuel IH]; intros n Hn.
  - assert (n = 0%N) as -> by (cbn in Hn; lia). reflexivity.
  - rewrite (decimal_rev_S (S fuel)), fmap_cons, value_rev_cons.
    pose proof (N.div_mod' n 10) as Hdm.
    assert (Hmod : (n mod 10 < 10)%N) by (apply N.mod_upper_bound; lia).
    destruct (n / 10 =? 0)%N eqn:Hq.
    + apply N.eqb_eq in Hq. rewrite Hq in Hdm. cbn [fmap list_fmap value_rev foldr].
      revert Hdm Hmod. generalize (n mod 10)%N. intros m Hdm Hmod. lia.
    + apply N.eqb_neq in Hq. rewrite IH.
      * revert Hdm Hmod Hq. generalize (n mod 10)%N (n / 10)%N.
        intros m q Hdm Hmod Hq. lia.
      * rewrite Nat2N.inj_succ, N.pow_succ_r' in Hn.
        revert Hdm Hmod Hn. generalize (n mod 10)%N (n / 10)%N (2 ^ N.of_nat fuel)%N.
        intros m q b Hdm Hmod Hn. lia.
Qed.

Lemma lt_pow_size_nat n : (n < 2 ^ N.of_nat (N.size_nat n))%N.
Proof.
  destruct n as [|p]; [done|]. cbn [N.size_nat].
  induction p as [p IH|p IH|]; cbn [Pos.size_nat];
    rewrite ?Nat2N.inj_succ, ?N.pow_succ_r'; lia.
Qed.

Lemma parseInt_decimal n : JS.parseInt (JS.decimal n) = Some (Z.of_N n).
Proof.
  destruct (decimal_digits n) as [Hne Hd].
  rewrite parseInt_dec_digits by done. f_equal.
  unfold JS.decimal. rewrite fmap_reverse, digits_value_reverse.
  apply value_decimal_rev, lt_pow_size_nat.
Qed.

(** [parseInt(String(n)) = n] for every safe integer [n]. *)
Lemma parseInt_number_to_string (beyond_safe : Z → jsstring) (n : Z) :
  JS.safe_integer n = true →
  JS.parseInt (JS.number_to_string beyond_safe n) = Some n.
Proof.
  intros Hsafe. unfold JS.number_to_string. rewrite Hsafe.
  destruct (n <? 0) eqn:Hn.
  - apply Z.ltb_lt in Hn. destruct (decimal_digits (Z.to_N (- n))) as [Hne Hd].
    rewrite parseInt_minus_dec_digits by done. f_equal.
    unfold JS.decimal. rewrite fmap_reverse, digits_value_reverse.
    rewrite value_decimal_rev by apply lt_pow_size_nat. lia.
  - apply Z.ltb_ge in Hn. rewrite parseInt_decimal. f_equal. lia.
Qed.

Lemma number_to_string_nonempty (beyond_safe : Z → jsstring) (n : Z) :
  JS.safe_integer n = true → JS.number_to_string beyond_safe n ≠ [].
Proof.
  intros Hsafe. unfold JS.number_to_string. rewrite Hsafe.
  destruct (n <? 0); [done|].
  apply decimal_digits.
Qed.

End number_strings.

Example number_to_string_42 beyond_safe :
  JS.number_to_string beyond_safe 42 = str "42".
Proof. reflexivity. Qed.
Example number_to_string_0 beyond_safe :
  JS.number_to_string beyond_safe 0 = str "0".
Proof. reflexivity. Qed.
Example number_to_string_neg beyond_safe :
  JS.number_to_string beyond_safe (-305) = str "-305".
Proof. reflexivity. Qed.
Example trim_spaces : JS.trim (str "  Buy milk ") = str "Buy milk".
Proof. reflexivity. Qed.

(* ===================================================================== *)
(** ** The server: what every request can and cannot do                   *)
(* ===================================================================== *)

Section server_outcomes.
Import MemStorage Routes.
#[local] Set Warnings "-clear-no-such-hyp".
Implicit Types (st : MemStorage) (b : json) (s : jsstring).

Lemma handle_post_tasks b st :
  handle (mkRequest POST tasks_path b) st = Some (post_task [] b st).
Proof. reflexivity. Qed.

Lemma match_path_two (a1 a2 : string) (p : list jsstring) s :
  match_path [Lit a1; Lit a2] p = Some s ↔ p = [str a1; str a2] ∧ s = [].
Proof.
  destruct p as [|x [|y [|z p]]]; cbn [match_path]; repeat case_decide;
    naive_solver.
Qed.

Lemma match_path_param (a1 a2 n : string) (p : list jsstring) s :
  match_path [Lit a1; Lit a2; Param n] p = Some s
  ↔ p = [str a1; str a2; s] ∧ s ≠ [].
Proof.
  destruct p as [|x [|y [|z [|w p]]]]; cbn [match_path]; repeat case_decide;
    naive_solver.
Qed.

Lemma match_path_literal_shadowed (a1 a2 n a3 : string) (p : list jsstring) :
  str a3 ≠ [] →
  match_path [Lit a1; Lit a2; Param n] p = None →
  match_path [Lit a1; Lit a2; Lit a3] p = None.
Proof.
  intros Hne.
  destruct p as [|x [|y [|z [|w p]]]]; cbn [match_path]; repeat case_decide;
    naive_solver.
Qed.

(** X9: for every request, the handler that runs is one of the first
    four registered: the list one for [GET /api/tasks], the create one
    for [POST /api/tasks], and the [:id] ones for a [PUT] or [DELETE] of
    [/api/tasks/<any non-empty segment>].  The handlers of
    [DELETE /api/tasks/completed] and [PUT /api/tasks/toggle-all] are
    run for no request at all. *)
Theorem only_four_handlers_run (req : Request) (h : Store Response) :
  dispatch registerRoutes req = Some h →
  (method req = GET ∧ path req = tasks_path ∧ h = get_tasks [] (body req))
  ∨ (method req = POST ∧ path req = tasks_path ∧ h = post_task [] (body req))
  ∨ (∃ s, s ≠ [] ∧ path req = task_path s
          ∧ ((method req = PUT ∧ h = put_task s (body req))
             ∨ (method req = DELETE ∧ h = delete_task s (body req)))).
Proof.
  destruct req as [m p b]. cbn [method path body].
  unfold registerRoutes. cbn [dispatch route_method route_path route_handler method path body].
  destruct m; repeat (case_decide; try done).
  - destruct (match_path [Lit "api"; Lit "tasks"] p) as [s|] eqn:E; [|done].
    apply match_path_two in E as [-> ->]. intros [= <-]. by left.
  - destruct (match_path [Lit "api"; Lit "tasks"] p) as [s|] eqn:E; [|done].
    apply match_path_two in E as [-> ->]. intros [= <-]. right. by left.
  - destruct (match_path [Lit "api"; Lit "tasks"; Param "id"] p) as [s|] eqn:E.
    + apply match_path_param in E as [-> Hs]. intros [= <-].
      right. right. exists s. split; [done|]. split; [done|]. by left.
    + rewrite (match_path_literal_shadowed _ _ _ "toggle-all" p) by done. done.
  - destruct (match_path [Lit "api"; Lit "tasks"; Param "id"] p) as [s|] eqn:E.
    + apply match_path_param in E as [-> Hs]. intros [= <-].
      right. right. exists s. split; [done|]. split; [done|]. by right.
    + rewrite (match_path_literal_shadowed _ _ _ "completed" p) by done. done.
Qed.

(** X10: the server answers 200, 201, 204, 400 or 404, and an answer 400
    or 404 (invalid id, invalid body, unknown id) leaves the store
    exactly as it was: only an answer of success can have changed it. *)
Theorem error_answers_change_nothing (req : Request) st res st' :
  handle req st = Some (res, st') →
  status res ∈ [200; 201; 204; 400; 404]
  ∧ (status res = 400 ∨ status res = 404 → st' = st).
Proof.
  unfold handle.
  destruct (dispatch registerRoutes req) as [h|] eqn:Hd; [|done].
  apply dispatch_elem_of in Hd as (r & p & Hin & ->).
  unfold registerRoutes in Hin.
  repeat (apply elem_of_cons in Hin as [->|Hin]); cbn [route_handler];
    [..|by apply elem_of_nil in Hin].
  - intros [= <- <-]. cbn. split; [set_solver|]. by intros [|].
  - unfold post_task. destruct (Schema.insertTaskSchema (body req)).
    + intros [= <- <-]. cbn. split; [set_solver|done].
    + rewrite bind_unfold. intros [= <- <-]. cbn. split; [set_solver|].
      by intros [|].
  - unfold put_task. destruct (JS.parseInt p) as [i|].
    2:{ intros [= <- <-]. cbn. split; [set_solver|done]. }
    destruct (Schema.updateTaskSchema (body req)) as [|u].
    { intros [= <- <-]. cbn. split; [set_solver|done]. }
    rewrite bind_unfold. unfold updateTask.
    destruct (tasks st !! i); cbn; intros [= <- <-]; cbn.
    + split; [set_solver|]. by intros [|].
    + split; [set_solver|done].
  - unfold delete_task. destruct (JS.parseInt p) as [i|].
    2:{ intros [= <- <-]. cbn. split; [set_solver|done]. }
    rewrite bind_unfold. unfold deleteTask. cbn [fst snd].
    case_bool_decide as Hi; intros [= <- <-]; cbn.
    + split; [set_solver|]. by intros [|].
    + split; [set_solver|]. intros _.
      rewrite delete_id; [apply MemStorage_eta|].
      by apply eq_None_not_Some.
  - unfold delete_completed. rewrite bind_unfold. intros [= <- <-]. cbn.
    split; [set_solver|]. by intros [|].
  - unfold put_toggle_all. rewrite !bind_unfold. intros [= <- <-]. cbn.
    split; [set_solver|]. by intros [|].
Qed.

(** X11: a request [POST /api/tasks] either is answered 201 with the
    created task, whose id is the counter, whose text is the string of
    the body's [text] and has 1 to 500 code units, whose [completed] is
    the boolean of the body or [false], and which is stored under the
    counter while the counter moves on by one; or it is answered 400
    with a message and the store stays as it was. *)
Theorem post_request_outcome b st :
  (∃ fields t,
      b = JObj fields
      ∧ get_field (str "text") fields = Some (JStr (text t))
      ∧ (1 ≤ length (text t) ≤ 500)%nat
      ∧ id t = currentId st
      ∧ match get_field (str "completed") fields with
        | None => completed t = false
        | Some v => v = JBool (completed t)
        end
      ∧ handle (mkRequest POST tasks_path b) st
        = Some (mkResponse 201 (TaskJson t),
                mkMemStorage (<[currentId st := t]> (tasks st))
                  (currentId st + 1)))
  ∨ (∃ message,
        handle (mkRequest POST tasks_path b) st
        = Some (mkResponse 400 (MessageJson message), st)).
Proof.
  rewrite handle_post_tasks. unfold post_task.
  destruct (Schema.insertTaskSchema b) as [issue|ins] eqn:E; [right; eauto|].
  left. unfold Schema.insertTaskSchema in E.
  destruct b as [| | | | |fields]; try done.
  unfold Schema.text_1_500 in E.
  destruct (get_field (str "text") fields) as [[| | |s| |]|] eqn:Et; try done.
  destruct (length s <? 1)%nat eqn:E1; [done|].
  destruct (500 <? length s)%nat eqn:E2; [done|].
  apply Nat.ltb_ge in E1, E2.
  unfold Schema.optional_boolean in E.
  destruct (get_field (str "completed") fields) as [[|c| | | |]|] eqn:Ec;
    try done; injection E as <-.
  - exists fields, (mkTask (currentId st) s c).
    rewrite bind_unfold, createTask_eq. cbn [text id completed].
    rewrite Et, Ec. repeat split; done || lia.
  - exists fields, (mkTask (currentId st) s false).
    rewrite bind_unfold, createTask_eq. cbn [text id completed].
    rewrite Et, Ec. repeat split; done || lia.
Qed.

(** X12: every store that the server reaches from a new store, by any
    sequence of requests with any paths and bodies, keeps each record
    under its own id with ids between 1 and the counter: no request
    changes the id of a task or stores a task under a foreign id. *)
Theorem served_store_invariant (reqs : list Request) :
  let st := (serve reqs new).2 in
  1 ≤ currentId st
  ∧ ∀ k t, tasks st !! k = Some t → id t = k ∧ 1 ≤ k < currentId st.
Proof.
  cbn zeta. pose proof (wf_serve reqs new wf_new) as [H1 Hall].
  split; [exact H1|]. intros k t Hk. exact (Hall k t Hk).
Qed.

End server_outcomes.

(* ===================================================================== *)
(** ** The toggle-all handler, called directly                            *)
(* ===================================================================== *)

Section toggle_all_handler.
Import MemStorage Routes.
Implicit Types (st : MemStorage) (m : gmap Z Task) (t : Task).

Lemma values_fmap (f : Task → Task) m : values (f <$> m) = f <$> values m.
Proof.
  unfold values. rewrite map_to_list_fmap.
  induction (map_to_list m) as [|[k t] l IH]; [done|].
  cbn. by rewrite IH.
Qed.

Lemma id_set_completed c t : id (set_completed c t) = id t.
Proof. done. Qed.

Lemma getTasks_set_completed c st :
  wf st →
  (getTasks (mkMemStorage (set_completed c <$> tasks st) (currentId st))).1
  = set_completed c <$> (getTasks st).1.
Proof.
  intros Hwf. cbn [getTasks fst tasks]. rewrite values_fmap.
  apply (StronglySorted_unique_strong by_id).
  - intros t1 t2 Ht1 Ht2 H12 H21.
    rewrite merge_sort_Permutation in Ht1.
    apply list_elem_of_fmap in Ht1 as (a1 & -> & Ha1).
    apply list_elem_of_fmap in Ht2 as (a2 & -> & Ha2).
    rewrite merge_sort_Permutation in Ha2.
    unfold by_id in H12, H21. rewrite !id_set_completed in H12, H21.
    f_equal. apply (wf_values_id_inj st); [done..|lia].
  - apply StronglySorted_merge_sort; apply _.
  - apply (StronglySorted_fmap _ by_id by_id); [done|].
    apply StronglySorted_merge_sort; apply _.
  - by rewrite !merge_sort_Permutation.
Qed.

(** X13: the toggle-all handler, called on a well-formed store, answers
    200 with every task of the store in ascending order of id, each with
    [completed] set to the negation of "all tasks were completed" and
    with id and text as before; the list it answers is the list that
    [getTasks] gives afterwards, and the counter has not moved. *)
Theorem put_toggle_all_sets_every_task params_id b st :
  wf st →
  let target := negb (forallb completed (getTasks st).1) in
  ∃ st',
    put_toggle_all params_id b st
    = (json_ok (TasksJson (set_completed target <$> (getTasks st).1)), st')
    ∧ (getTasks st').1 = set_completed target <$> (getTasks st).1
    ∧ Forall (λ t, completed t = target) (getTasks st').1
    ∧ (∀ k, tasks st' !! k = set_completed target <$> tasks st !! k)
    ∧ currentId st' = currentId st.
Proof.
  intros Hwf target. eexists. split.
  { apply (put_toggle_all_handler params_id b st Hwf). }
  cbn [tasks currentId]. fold target.
  split; [by apply getTasks_set_completed|].
  split; [|split; [|done]].
  - rewrite getTasks_set_completed by done.
    apply Forall_fmap, Forall_forall. by intros t _.
  - intros k. by rewrite lookup_fmap.
Qed.

End toggle_all_handler.

(* ===================================================================== *)
(** ** The page and the server together                                   *)
(* ===================================================================== *)

Section page.
Import MemStorage Routes.
Implicit Types (st : MemStorage) (ts : list Task).

(** What [String] writes for an integer beyond the safe range: any
    function; the theorems below hold whatever it is. *)
Variable beyond_safe : Z → jsstring.

Lemma handle_task_url_put i b st :
  JS.safe_integer i = true →
  handle (mkRequest PUT (Home.task_url beyond_safe i) b) st
  = Some (put_task (JS.number_to_string beyond_safe i) b st).
Proof. intros Hi. by apply handle_put_task, number_to_string_nonempty. Qed.

Lemma handle_task_url_delete i b st :
  JS.safe_integer i = true →
  handle (mkRequest DELETE (Home.task_url beyond_safe i) b) st
  = Some (delete_task (JS.number_to_string beyond_safe i) b st).
Proof. intros Hi. by apply handle_delete_task, number_to_string_nonempty. Qed.

Lemma updateTaskSchema_completed c :
  Schema.updateTaskSchema (JObj ([] ++ [(str "completed", JBool c)]))
  = inr (mkUpdateTask None (Some c)).
Proof. reflexivity. Qed.

Lemma updateTaskSchema_text (s : jsstring) :
  Schema.updateTaskSchema (JObj ([(str "text", JStr s)] ++ []))
  = inr (mkUpdateTask (Some s) None).
Proof. reflexivity. Qed.

(** X14: ticking the checkbox of a task that the store holds under its
    id, a safe integer (as every id is that [createTask] hands out, a
    counter from 1): the request of [handleToggleTask] reaches the update
    handler with that very id, is answered 200 with the task,
    [completed] negated and id and text unchanged, and the store differs
    from the earlier one in this record only. *)
Theorem handleToggleTask_flips_one st task :
  tasks st !! id task = Some task →
  JS.safe_integer (id task) = true →
  let flipped := mkTask (id task) (text task) (negb (completed task)) in
  handle (Home.handleToggleTask beyond_safe task) st
  = Some (json_ok (TaskJson flipped),
          mkMemStorage (<[id task := flipped]> (tasks st)) (currentId st)).
Proof.
  intros Hi Hsafe flipped.
  unfold Home.handleToggleTask, Home.updateTaskMutation.
  unfold apiRequest. cbn [update_text update_completed].
  rewrite handle_task_url_put by done. unfold put_task.
  rewrite parseInt_number_to_string by done.
  rewrite updateTaskSchema_completed.
  rewrite bind_unfold. unfold updateTask. rewrite Hi. done.
Qed.

(** X15: the delete button of the page: for every id that is a safe
    integer (at most 2^53 - 1 in absolute value), the request of
    [handleDeleteTask] reaches the delete handler with that very id; it
    is answered 204 and the record is removed when the store has the id,
    and 404 with the store as it was when it has not.  Beyond the safe
    range the URL is not the decimal text of the id and nothing is
    stated. *)
Theorem handleDeleteTask_outcome st (taskId : Z) :
  JS.safe_integer taskId = true →
  handle (Home.handleDeleteTask beyond_safe taskId) st
  = Some (match tasks st !! taskId with
          | Some _ =>
              (mkResponse 204 NoBody,
               mkMemStorage (delete taskId (tasks st)) (currentId st))
          | None => (mkResponse 404 (MessageJson (Msg "Task not found")), st)
          end).
Proof.
  intros Hsafe.
  unfold Home.handleDeleteTask, Home.deleteTaskMutation, apiRequest.
  rewrite handle_task_url_delete by done. unfold delete_task.
  rewrite parseInt_number_to_string by done. rewrite bind_unfold.
  unfold deleteTask.
  cbn [fst snd]. destruct (tasks st !! taskId) as [t|] eqn:Hi.
  - by rewrite bool_decide_eq_true_2 by eauto.
  - rewrite bool_decide_eq_false_2 by apply is_Some_None.
    by rewrite delete_id, MemStorage_eta.
Qed.

Lemma insertTaskSchema_text_false (s : jsstring) :
  s ≠ [] →
  Schema.insertTaskSchema
    (JObj [(str "text", JStr s); (str "completed", JBool false)])
  = if (500 <? length s)%nat then inl (too_big "Task text is too long")
    else inr (mkInsertTask s (Some false)).
Proof.
  intros Hs. unfold Schema.insertTaskSchema.
  change (get_field (str "text") _) with (Some (JStr s)).
  change (get_field (str "completed") _) with (Some (JBool false)).
  unfold Schema.text_1_500. destruct s as [|c s]; [done|].
  cbn [length]. change (S (length s) <? 1)%nat with false.
  by destruct (500 <? S (length s))%nat.
Qed.

(** X16: the add form of the page: when the input is empty or white
    space only, [handleAddTask] sends nothing; otherwise it sends one
    create request with the trimmed text, which the server answers 201,
    storing the task with that text and [completed = false] under the
    next id, unless the trimmed text has more than 500 code units, in
    which case the answer is 400 "Task text is too long" and nothing is
    stored. *)
Theorem handleAddTask_outcome (newTaskText : jsstring) st :
  match Home.handleAddTask newTaskText with
  | None => JS.trim newTaskText = []
  | Some req =>
      let task := mkTask (currentId st) (JS.trim newTaskText) false in
      JS.trim newTaskText ≠ []
      ∧ handle req st
        = Some (if (500 <? length (JS.trim newTaskText))%nat
                then (mkResponse 400 (MessageJson (Msg "Task text is too long")),
                      st)
                else (mkResponse 201 (TaskJson task),
                      mkMemStorage (<[currentId st := task]> (tasks st))
                        (currentId st + 1)))
  end.
Proof.
  unfold Home.handleAddTask.
  destruct (JS.trim newTaskText) as [|c s] eqn:E; [done|].
  cbn zeta. split; [done|].
  unfold Home.createTaskMutation, apiRequest.
  cbn [insert_text insert_completed].
  change [str "api"; str "tasks"] with tasks_path.
  rewrite handle_post_tasks. unfold post_task.
  rewrite insertTaskSchema_text_false by done.
  destruct (500 <? length (c :: s))%nat; [done|].
  by rewrite bind_unfold.
Qed.

(** X17: the edit field of the page, for a task that the store holds
    under an id that is a safe integer (as every id is that [createTask]
    hands out): when the edit buffer is empty or white space only, [handleSaveEdit]
    sends nothing; otherwise it sends one update request with the
    trimmed, non-empty text, which the server answers 200, storing that
    text (of any length) for the task and leaving its id and its
    [completed] flag as they were. *)
Theorem handleSaveEdit_outcome (editingText : jsstring) (taskId : Z) st existing :
  tasks st !! taskId = Some existing →
  JS.safe_integer taskId = true →
  match Home.handleSaveEdit beyond_safe editingText taskId with
  | None => JS.trim editingText = []
  | Some req =>
      let edited :=
        mkTask (id existing) (JS.trim editingText) (completed existing) in
      JS.trim editingText ≠ []
      ∧ handle req st
        = Some (json_ok (TaskJson edited),
                mkMemStorage (<[taskId := edited]> (tasks st)) (currentId st))
  end.
Proof.
  intros Hi Hsafe. unfold Home.handleSaveEdit.
  destruct (JS.trim editingText) as [|c s] eqn:E; [done|].
  cbn zeta. split; [done|].
  unfold Home.updateTaskMutation, apiRequest.
  cbn [update_text update_completed].
  rewrite handle_task_url_put by done. unfold put_task.
  rewrite parseInt_number_to_string by done.
  rewrite updateTaskSchema_text.
  rewrite bind_unfold. unfold updateTask. rewrite Hi. done.
Qed.

Lemma filter_shown_completed ts :
  Home.filteredTasks Home.FilterCompleted ts
  = filter (λ t, completed t = true) ts.
Proof. done. Qed.

Lemma filter_shown_active ts :
  Home.filteredTasks Home.FilterActive ts
  = filter (λ t, ¬ completed t = true) ts.
Proof.
  unfold Home.filteredTasks. apply list_filter_iff. intros t. cbn.
  by destruct (completed t).
Qed.

(** X18: what the page shows of a fetched list: the filter "all" shows
    the list itself; "active" and "completed" split it, every task being
    in exactly one of the two; the three counters are the lengths of the
    three views, so total = completed + remaining; "Clear Completed" is
    disabled exactly when the completed view is empty and the toggle-all
    button exactly when the list is empty. *)
Theorem page_counts_match_views ts :
  Home.filteredTasks Home.FilterAll ts = ts
  ∧ Home.filteredTasks Home.FilterCompleted ts
    ++ Home.filteredTasks Home.FilterActive ts ≡ₚ ts
  ∧ Home.totalTasks ts
    = Z.of_nat (length (Home.filteredTasks Home.FilterAll ts))
  ∧ Home.completedTasks ts
    = Z.of_nat (length (Home.filteredTasks Home.FilterCompleted ts))
  ∧ Home.remainingTasks ts
    = Z.of_nat (length (Home.filteredTasks Home.FilterActive ts))
  ∧ (Home.clearCompleted_disabled ts = true
     ↔ Home.filteredTasks Home.FilterCompleted ts = [])
  ∧ (Home.toggleAll_disabled ts = true ↔ ts = []).
Proof.
  assert (Hall : Home.filteredTasks Home.FilterAll ts = ts).
  { unfold Home.filteredTasks. induction ts as [|t ts IH]; [done|].
    rewrite filter_cons_True by done. by rewrite IH. }
  assert (Hsplit : Home.filteredTasks Home.FilterCompleted ts
                   ++ Home.filteredTasks Home.FilterActive ts ≡ₚ ts).
  { rewrite filter_shown_completed, filter_shown_active.
    apply filter_app_complement. }
  split; [exact Hall|]. split; [exact Hsplit|].
  split; [by rewrite Hall|]. split; [done|].
  split; [|split].
  - unfold Home.remainingTasks, Home.totalTasks, Home.completedTasks.
    rewrite <- Hsplit at 1. rewrite length_app, filter_shown_completed. lia.
  - unfold Home.clearCompleted_disabled, Home.completedTasks.
    rewrite bool_decide_eq_true, filter_shown_completed.
    destruct (filter _ ts); cbn; split; (done || lia).
  - unfold Home.toggleAll_disabled, Home.totalTasks.
    rewrite bool_decide_eq_true. destruct ts; cbn; split; (done || lia).
Qed.

(** X19: a body that [insertTaskSchema] accepts is accepted by
    [updateTaskSchema] too, with the same text and the same [completed]:
    the update schema is the insert schema with the text made optional
    and its length limits dropped. *)
Theorem insert_valid_is_update_valid (b : json) (ins : InsertTask) :
  Schema.insertTaskSchema b = inr ins →
  Schema.updateTaskSchema b
  = inr (mkUpdateTask (Some (insert_text ins)) (insert_completed ins)).
Proof.
  unfold Schema.insertTaskSchema, Schema.updateTaskSchema.
  destruct b as [| | | | |fields]; try done.
  unfold Schema.text_1_500, Schema.optional_string.
  destruct (get_field (str "text") fields) as [[| | |s| |]|]; try done.
  destruct (length s <? 1)%nat; [done|].
  destruct (500 <? length s)%nat; [done|].
  destruct (Schema.optional_boolean _) as [|c]; [done|].
  by intros [= <-].
Qed.

End page.

(* ===================================================================== *)
(** ** The further theorems at concrete stores and requests               *)
(* ===================================================================== *)

Lemma createTask_appends_witness :
  (MemStorage.getTasks
     (MemStorage.createTask (mkInsertTask (str "d") None) store_abc).2).1
  = (MemStorage.getTasks store_abc).1 ++ [mkTask 4 (str "d") false].
Proof.
  destruct (createTask_appends store_abc (mkInsertTask (str "d") None))
    as (_ & _ & _ & H).
  { apply (bool_decide_unpack _). vm_compute. exact I. }
  exact H.
Defined.

Lemma deleteTask_absent_witness :
  MemStorage.deleteTask 7 store_abc = (false, store_abc).
Proof. apply (deleteTask_absent store_abc 7). reflexivity. Defined.

Lemma getTasks_ids_increase_witness :
  NoDup (id <$> (MemStorage.getTasks store_abc).1).
Proof.
  destruct (getTasks_ids_increase store_abc) as (_ & H & _).
  { apply (bool_decide_unpack _). vm_compute. exact I. }
  exact H.
Defined.

Lemma clearCompletedTasks_idempotent_witness :
  MemStorage.clearCompletedTasks (MemStorage.clearCompletedTasks store_abc).2
  = (0%nat, (MemStorage.clearCompletedTasks store_abc).2).
Proof.
  destruct (clearCompletedTasks_idempotent store_abc) as (_ & H).
  { apply (bool_decide_unpack _). vm_compute. exact I. }
  exact H.
Defined.

Lemma updateTask_idempotent_witness :
  MemStorage.updateTask 2 (mkUpdateTask (Some (str "B")) None)
    (MemStorage.updateTask 2 (mkUpdateTask (Some (str "B")) None) store_abc).2
  = MemStorage.updateTask 2 (mkUpdateTask (Some (str "B")) None) store_abc.
Proof.
  destruct (updateTask_idempotent store_abc 2 (mkTask 2 (str "b") true)
              (mkUpdateTask (Some (str "B")) None)) as (H & _).
  { reflexivity. }
  exact H.
Defined.

Lemma createTask_then_deleteTask_witness :
  MemStorage.deleteTask 4
    (MemStorage.createTask (mkInsertTask (str "d") None) store_abc).2
  = (true, mkMemStorage (tasks store_abc) 5).
Proof.
  destruct (createTask_then_deleteTask store_abc (mkInsertTask (str "d") None))
    as (H & _).
  { apply (bool_decide_unpack _). vm_compute. exact I. }
  exact H.
Defined.

Lemma only_four_handlers_run_witness :
  let req := mkRequest PUT (task_path (str "toggle-all")) (JObj []) in
  let h := Routes.put_task (str "toggle-all") (JObj []) in
  (method req = GET ∧ path req = tasks_path
   ∧ h = Routes.get_tasks [] (body req))
  ∨ (method req = POST ∧ path req = tasks_path
     ∧ h = Routes.post_task [] (body req))
  ∨ (∃ s, s ≠ [] ∧ path req = task_path s
          ∧ ((method req = PUT ∧ h = Routes.put_task s (body req))
             ∨ (method req = DELETE ∧ h = Routes.delete_task s (body req)))).
Proof.
  apply (only_four_handlers_run
           (mkRequest PUT (task_path (str "toggle-all")) (JObj []))
           (Routes.put_task (str "toggle-all") (JObj []))).
  reflexivity.
Defined.

Lemma error_answers_change_nothing_witness :
  let res := mkResponse 404 (MessageJson (Msg "Task not found")) in
  status res ∈ [200; 201; 204; 400; 404]
  ∧ (status res = 400 ∨ status res = 404 → store_abc = store_abc).
Proof.
  apply (error_answers_change_nothing
           (mkRequest DELETE (task_path (str "7")) (JObj [])) store_abc
           (mkResponse 404 (MessageJson (Msg "Task not found"))) store_abc).
  reflexivity.
Defined.

Lemma put_toggle_all_sets_every_task_witness :
  ∃ st',
    Routes.put_toggle_all [] (JObj []) store_mixed
    = (json_ok (TasksJson [mkTask 1 (str "a") true; mkTask 2 (str "b") true]),
       st').
Proof.
  destruct (put_toggle_all_sets_every_task [] (JObj []) store_mixed)
    as (st' & H & _).
  { apply (bool_decide_unpack _). vm_compute. exact I. }
  exists st'. exact H.
Defined.

Lemma handleToggleTask_flips_one_witness :
  Routes.handle (Home.handleToggleTask (λ _, []) (mkTask 2 (str "b") true))
    store_abc
  = Some (json_ok (TaskJson (mkTask 2 (str "b") false)),
          mkMemStorage (<[2 := mkTask 2 (str "b") false]> (tasks store_abc))
            (currentId store_abc)).
Proof.
  apply (handleToggleTask_flips_one (λ _, []) store_abc
           (mkTask 2 (str "b") true)); reflexivity.
Defined.

Lemma handleDeleteTask_outcome_witness :
  Routes.handle (Home.handleDeleteTask (λ _, []) 2) store_abc
  = Some (mkResponse 204 NoBody,
          mkMemStorage (delete 2 (tasks store_abc)) (currentId store_abc)).
Proof.
  apply (handleDeleteTask_outcome (λ _, []) store_abc 2). reflexivity.
Defined.

Lemma handleSaveEdit_outcome_witness :
  match Home.handleSaveEdit (λ _, []) (str " B ") 2 with
  | None => JS.trim (str " B ") = []
  | Some req =>
      JS.trim (str " B ") ≠ []
      ∧ Routes.handle req store_abc
        = Some (json_ok (TaskJson (mkTask 2 (JS.trim (str " B ")) true)),
                mkMemStorage
                  (<[2 := mkTask 2 (JS.trim (str " B ")) true]> (tasks store_abc))
                  (currentId store_abc))
  end.
Proof.
  apply (handleSaveEdit_outcome (λ _, []) (str " B ") 2 store_abc
           (mkTask 2 (str "b") true)); reflexivity.
Defined.

Lemma insert_valid_is_update_valid_witness :
  Schema.updateTaskSchema (JObj [(str "text", JStr (str "a"))])
  = inr (mkUpdateTask (Some (str "a")) None).
Proof.
  apply (insert_valid_is_update_valid (JObj [(str "text", JStr (str "a"))])
           (mkInsertTask (str "a") None)).
  reflexivity.
Defined.
